(** * nano-banana-mcp: the tool server of [src/index.ts]

    A shallow embedding of the [NanoBananaMCP] class: its four private
    fields, the five tool handlers, the request dispatcher with its error
    normalisation, and the start-up [loadConfig].  The collaborators the
    class calls into (the generative client, the file system, the clock
    and the random source, Node's [path] module) are modelled next to it.

    Conventions.
    - Tool arguments follow the TypeScript types the handlers cast to
      ([string], [string[]]); a property that is missing ([undefined]) is
      [None], and so is a missing [arguments] object.
    - A [Buffer] is represented by its base64 text, so that
      [Buffer.from(d, 'base64')] and [buf.toString('base64')] are both the
      identity on the representation.
    - Strings are byte strings; the handlers only inspect ASCII characters
      (['/'], ['.'], [':'], letters of file extensions). *)

From Stdlib Require Import Ascii String DecimalString.
From stdpp Require Import base option list strings gmap fin_maps.

Local Open Scope string_scope.
Local Open Scope list_scope.

(** ** JavaScript helpers *)

Definition nl : string := String "010"%char EmptyString.
Definition dq : string := String "034"%char EmptyString.

Definition chars (s : string) : list ascii := list_ascii_of_string s.
Definition of_chars (cs : list ascii) : string := string_of_list_ascii cs.

(** Truthiness of a value of type [string | undefined]. *)
Definition truthy (v : option string) : bool :=
  match v with
  | Some s => bool_decide (s ≠ "")
  | None => false
  end.

(** [`${v}`] for a value of type [string | undefined]. *)
Definition template (v : option string) : string :=
  match v with
  | Some s => s
  | None => "undefined"
  end.

(** [a || b] on strings. *)
Definition or_else (a : option string) (b : string) : string :=
  match a with
  | Some s => if bool_decide (s ≠ "") then s else b
  | None => b
  end.

(** [s.substring(i, j)]: the characters from index [min i j] up to, not
    including, index [max i j]. *)
Definition substring_js (i j : nat) (s : string) : string :=
  substring (Nat.min i j) (Nat.max i j - Nat.min i j) s.

(** [s.replace(/[:.]/g, '-')]. *)
Definition hyphenate (c : ascii) : ascii :=
  if bool_decide (c = ":"%char ∨ c = "."%char) then "-"%char else c.

Definition replace_colon_dot (s : string) : string :=
  of_chars (hyphenate <$> chars s).

(** [s.toLowerCase()] on the ASCII letters; no character outside ASCII
    lowers to a letter of the extensions [getMimeType] compares with. *)
Definition lower (c : ascii) : ascii :=
  let n := nat_of_ascii c in
  if bool_decide (65 ≤ n ≤ 90)%nat then ascii_of_nat (n + 32)%nat else c.

Definition toLowerCase (s : string) : string := of_chars (lower <$> chars s).

(** [arr.join(sep)] for an array of strings. *)
Fixpoint join_with (sep : string) (l : list string) : string :=
  match l with
  | [] => ""
  | [x] => x
  | x :: rest => x +:+ sep +:+ join_with sep rest
  end.

(** Decimal rendering of a non-negative integer. *)
Definition show_nat (n : nat) : string := NilZero.string_of_uint (Nat.to_uint n).

(** ** Node's [path] module, POSIX flavour

    Written over the list of characters of the path.  [normalize] works on
    the segments between separators, which is what [normalizeString]
    computes character by character. *)
Module path.

Definition is_sep (c : ascii) : bool := bool_decide (c = "/"%char).
Definition not_sep (c : ascii) : bool := negb (is_sep c).
Definition is_dot (c : ascii) : bool := bool_decide (c = "."%char).
Definition not_dot (c : ascii) : bool := negb (is_dot c).

Fixpoint take_while {A} (f : A → bool) (l : list A) : list A :=
  match l with
  | x :: l' => if f x then x :: take_while f l' else []
  | [] => []
  end.

Fixpoint drop_while {A} (f : A → bool) (l : list A) : list A :=
  match l with
  | x :: l' => if f x then drop_while f l' else l
  | [] => []
  end.

(** [path.basename(p)]: trailing separators are ignored, the result is
    what follows the last remaining separator. *)
Definition basename (p : string) : string :=
  let r := drop_while is_sep (rev (chars p)) in
  of_chars (rev (take_while not_sep r)).

(** [path.dirname(p)]: the scan runs from the end down to index 1. *)
Definition dirname (p : string) : string :=
  match chars p with
  | [] => "."
  | c0 :: body =>
      let hasRoot := is_sep c0 in
      let r := drop_while not_sep (drop_while is_sep (rev body)) in
      match r with
      | [] => if hasRoot then "/" else "."
      | _ :: before =>
          if hasRoot && bool_decide (length r = 1%nat) then "//"
          else of_chars (c0 :: rev before)
      end
  end.

(** [path.extname(p)]: from the last dot of the base name, unless there
    is no dot, the dot leads the base name, or the base name is [..]. *)
Definition extname (p : string) : string :=
  let rb := rev (chars (basename p)) in
  let ext := take_while not_dot rb in
  match drop_while not_dot rb with
  | [] => ""
  | _ :: before =>
      match before with
      | [] => ""
      | _ =>
          if bool_decide (ext = [] ∧ before = ["."%char]) then ""
          else of_chars ("."%char :: rev ext)
      end
  end.

(** The segments of a path: what lies between separators. *)
Fixpoint split (cs : list ascii) : list (list ascii) :=
  match cs with
  | [] => [[]]
  | c :: cs' =>
      if is_sep c then [] :: split cs'
      else
        match split cs' with
        | seg :: segs => (c :: seg) :: segs
        | [] => [[c]]
        end
  end.

Fixpoint unsplit (segs : list (list ascii)) : list ascii :=
  match segs with
  | [] => []
  | [seg] => seg
  | seg :: rest => seg ++ "/"%char :: unsplit rest
  end.

Definition dotdot : list ascii := ["."%char; "."%char].

(** [normalizeString]: [res] is the stack of segments kept so far, last
    one first. *)
Fixpoint resolve (allowAboveRoot : bool) (res : list (list ascii))
    (segs : list (list ascii)) : list (list ascii) :=
  match segs with
  | [] => rev res
  | seg :: segs' =>
      if bool_decide (seg = [] ∨ seg = ["."%char]) then
        resolve allowAboveRoot res segs'
      else if bool_decide (seg = dotdot) then
        match res with
        | top :: res' =>
            if bool_decide (top = dotdot) then
              resolve allowAboveRoot
                (if allowAboveRoot then dotdot :: res else res) segs'
            else resolve allowAboveRoot res' segs'
        | [] =>
            resolve allowAboveRoot
              (if allowAboveRoot then [dotdot] else []) segs'
        end
      else resolve allowAboveRoot (seg :: res) segs'
  end.

Definition starts_with_sep (cs : list ascii) : bool :=
  match cs with
  | c :: _ => is_sep c
  | [] => false
  end.

Definition ends_with_sep (cs : list ascii) : bool := starts_with_sep (rev cs).

(** [path.isAbsolute(p)]. *)
Definition isAbsolute (p : string) : bool := starts_with_sep (chars p).

(** [path.normalize(p)], on the characters of [p]. *)
Definition normalize_chars (cs : list ascii) : list ascii :=
  match cs with
  | [] => ["."%char]
  | _ =>
      let isAbsolute := starts_with_sep cs in
      let trailingSeparator := ends_with_sep cs in
      let body := unsplit (resolve (negb isAbsolute) [] (split cs)) in
      match body with
      | [] =>
          if isAbsolute then ["/"%char]
          else if trailingSeparator then ["."%char; "/"%char] else ["."%char]
      | _ =>
          (if isAbsolute then ["/"%char] else []) ++ body
          ++ (if trailingSeparator then ["/"%char] else [])
      end
  end.

Definition normalize (p : string) : string := of_chars (normalize_chars (chars p)).

(** [path.join(...args)]: the non-empty arguments, separated by [/] and
    normalized. *)
Definition join (args : list string) : string :=
  match filter (λ a, a ≠ "") args with
  | [] => "."
  | parts => normalize (join_with "/" parts)
  end.


(** A plain name: not empty, not [.] or [..], no separator inside. *)
Definition plain (seg : list ascii) : Prop :=
  seg ≠ [] ∧ seg ≠ ["."%char] ∧ seg ≠ dotdot ∧ Forall (λ c, is_sep c = false) seg.

(** A stack of [resolve] in order: [..] only on top of [..], and only
    above the root; everything else plain. *)
Fixpoint stack_ok (allowAboveRoot : bool) (res : list (list ascii)) : Prop :=
  match res with
  | [] => True
  | top :: res' =>
      (top = dotdot ∧ allowAboveRoot = true ∧ Forall (λ s, s = dotdot) res')
      ∨ (plain top ∧ stack_ok allowAboveRoot res')
  end.

(** A normalized path: the root if absolute, then the segments. *)
Definition render (isAbsolute : bool) (segs : list (list ascii)) : list ascii :=
  (if isAbsolute then ["/"%char] else []) ++ unsplit segs.

End path.

(** ** Message fragments

    The pictographs that open the lines of the replies, byte for byte as
    the source file has them. *)

Definition mark_ok : string := "‚úÖ".
Definition mark_art : string := "üé®".
Definition mark_folder : string := "üìÅ".
Definition mark_bulb : string := "üí°".
Definition mark_cycle : string := "üîÑ".
Definition mark_clipboard : string := "üìã".
Definition mark_pin : string := "üìç".
Definition mark_cross : string := "‚ùå".
Definition mark_memo : string := "üìù".
Definition mark_first : string := "ü•á".
Definition mark_second : string := "ü•à".
Definition mark_camera : string := "üì∑".

(** ** Data model *)

(** [ErrorCode] of the protocol SDK, the four members the file uses. *)
Inductive ErrorCode := InvalidRequest | MethodNotFound | InvalidParams | InternalError.

(** What a handler can throw: the protocol's [McpError], zod's [ZodError]
    with the messages of its issues, and any other [Error] (a [TypeError]
    of the runtime, a file-system or client error) with its message. *)
Inductive exn :=
  | McpError (code : ErrorCode) (message : string)
  | ZodError (errors : list string)
  | Error (message : string).

Definition code_number (c : ErrorCode) : string :=
  match c with
  | InvalidRequest => "-32600"
  | MethodNotFound => "-32601"
  | InvalidParams => "-32602"
  | InternalError => "-32603"
  end.

(** [error instanceof Error ? error.message : String(error)]; every [exn]
    is an [Error].  The SDK prefixes the message of an [McpError] with its
    code.  A [ZodError] never reaches a handler that reads its message
    ([configureGeminiToken] converts it, [loadConfig] drops it); it is
    rendered by the list of its issues. *)
Definition error_message (e : exn) : string :=
  match e with
  | McpError c m => "MCP error " +:+ code_number c +:+ ": " +:+ m
  | ZodError errs => join_with "; " errs
  | Error m => m
  end.

(** [Config], the type inferred from [ConfigSchema]. *)
Record Config := {
  geminiApiKey : string;
  workplacePath : option string;
}.

(** The client object [new GoogleGenAI({ apiKey })]. *)
Record GoogleGenAI := { client_apiKey : string }.

Inductive ConfigSource := environment | config_file | not_configured.

(** The private fields of [NanoBananaMCP] (the [server] field is the
    transport and holds no state of the handlers). *)
Record NanoBananaMCP := {
  genAI : option GoogleGenAI;
  config : option Config;
  lastImagePath : option string;
  configSource : ConfigSource;
}.

(** The object as the constructor leaves it. *)
Definition new_NanoBananaMCP : NanoBananaMCP :=
  {| genAI := None; config := None; lastImagePath := None;
     configSource := not_configured |}.

(** [request.params.arguments], cast as the handlers cast it. *)
Record ToolArguments := {
  apiKey : option string;
  prompt : option string;
  imagePath : option string;
  relative_save_path : option string;
  referenceImages : option (list string);
}.

Definition no_arguments : ToolArguments :=
  {| apiKey := None; prompt := None; imagePath := None;
     relative_save_path := None; referenceImages := None |}.

Record CallToolRequest := {
  name : string;
  arguments : option ToolArguments;
}.

(** The outbound request of [models.generateContent]. *)
Inductive RequestPart :=
  | InlinePart (data mimeType : string)
  | TextPart (text : option string).

Inductive Contents :=
  | PromptContents (prompt : option string)
  | PartsContents (parts : list RequestPart).

Record GenerateContentParameters := {
  model : string;
  contents : Contents;
}.

(** The response of the generative service, with the optional fields the
    handlers test. *)
Record InlineData := {
  inline_data : option string;
  inline_mimeType : option string;
}.

Record Part := {
  part_text : option string;
  part_inlineData : option InlineData;
}.

Record ResponseContent := { content_parts : option (list Part) }.

Record Candidate := { candidate_content : option ResponseContent }.

Record GenerateContentResponse := { candidates : option (list Candidate) }.

(** The entries of a tool result. *)
Inductive ContentItem :=
  | TextItem (text : string)
  | ImageItem (data mimeType : string).

Record CallToolResult := { content : list ContentItem }.

(** ** The world around the server *)

(** What the handlers do to the outside, in order. *)
Inductive event :=
  | GenerateContentCall (client : GoogleGenAI) (params : GenerateContentParameters)
  | Mkdir (dir : string)
  | WriteFile (file : string) (buffer : string).

(** The mutable part: the files with their contents, the directories
    [fs.mkdir] made, the paths on which [fs.mkdir] and [fs.writeFile]
    raise (no permission, a directory in the way, no space left), the
    number of file names drawn from the clock and the random source, the
    number of requests sent, and the trace of effects. *)
Record World := {
  files : gmap string string;
  dirs : gset string;
  denied : gset string;
  draws : nat;
  calls : nat;
  trace : list event;
}.

(** The part that the server only reads.  [generateContent n c p] is the
    outcome of the [n]-th request; [toISOString n] and [random36 n] are
    [new Date().toISOString()] and [Math.random().toString(36)] at the
    [n]-th file name drawn; [stat p] is the size in bytes and the
    [toLocaleString] of the modification time that [fs.stat] reports. *)
Record Env := {
  generateContent : nat → GoogleGenAI → GenerateContentParameters → exn + GenerateContentResponse;
  toISOString : nat → string;
  random36 : nat → string;
  stat : string → nat * string;
  cwd : string;
  GEMINI_API_KEY : option string;
  WORKPLACE_PATH : option string;
}.

Record machine := {
  this : NanoBananaMCP;
  os : World;
}.

(** ** Handlers as computations

    A computation runs on the machine and either returns or throws; what
    it did to the machine before throwing stays done. *)
Inductive outcome (A : Type) :=
  | Return (a : A)
  | Throw (e : exn).
Arguments Return {A} a.
Arguments Throw {A} e.

Definition IO (A : Type) : Type := machine → outcome A * machine.

#[global] Instance IO_ret : MRet IO := λ A a m, (Return a, m).

#[global] Instance IO_bind : MBind IO := λ A B f c m,
  match c m with
  | (Return a, m') => f a m'
  | (Throw e, m') => (Throw e, m')
  end.

Definition throw {A} (e : exn) : IO A := λ m, (Throw e, m).

(** [try { body } catch (error) { handler }]. *)
Definition try_catch {A} (body : IO A) (handler : exn → IO A) : IO A := λ m,
  match body m with
  | (Return a, m') => (Return a, m')
  | (Throw e, m') => handler e m'
  end.

Definition read_this {A} (f : NanoBananaMCP → A) : IO A := λ m, (Return (f (this m)), m).

Definition update_this (f : NanoBananaMCP → NanoBananaMCP) : IO unit := λ m,
  (Return tt, {| this := f (this m); os := os m |}).

Definition set_genAI (g : option GoogleGenAI) (s : NanoBananaMCP) : NanoBananaMCP :=
  {| genAI := g; config := config s; lastImagePath := lastImagePath s;
     configSource := configSource s |}.
Definition set_config (c : option Config) (s : NanoBananaMCP) : NanoBananaMCP :=
  {| genAI := genAI s; config := c; lastImagePath := lastImagePath s;
     configSource := configSource s |}.
Definition set_lastImagePath (p : option string) (s : NanoBananaMCP) : NanoBananaMCP :=
  {| genAI := genAI s; config := config s; lastImagePath := p;
     configSource := configSource s |}.
Definition set_configSource (c : ConfigSource) (s : NanoBananaMCP) : NanoBananaMCP :=
  {| genAI := genAI s; config := config s; lastImagePath := lastImagePath s;
     configSource := c |}.

(** *** File system *)

Definition ENOENT (p : string) : exn :=
  Error ("ENOENT: no such file or directory, open '" +:+ p +:+ "'").
Definition EACCES (op p : string) : exn :=
  Error ("EACCES: permission denied, " +:+ op +:+ " '" +:+ p +:+ "'").
Definition ERR_INVALID_ARG_TYPE (what : string) : exn :=
  Error ("The " +:+ dq +:+ what +:+ dq
         +:+ " argument must be of type string. Received undefined").

(** [fs.readFile(p)], then [toString('base64')]. *)
Definition fs_readFile (p : option string) : IO string := λ m,
  match p with
  | None => (Throw (ERR_INVALID_ARG_TYPE "path"), m)
  | Some p =>
      match files (os m) !! p with
      | Some buffer => (Return buffer, m)
      | None => (Throw (ENOENT p), m)
      end
  end.

(** [fs.mkdir(d, { recursive: true, mode: 0o755 })]. *)
Definition fs_mkdir (d : string) : IO unit := λ m,
  let w := os m in
  if bool_decide (d ∈ denied w) then (Throw (EACCES "mkdir" d), m)
  else
    (Return tt,
     {| this := this m;
        os := {| files := files w; dirs := {[d]} ∪ dirs w; denied := denied w;
                 draws := draws w; calls := calls w;
                 trace := trace w ++ [Mkdir d] |} |}).

(** [fs.writeFile(p, buffer)]. *)
Definition fs_writeFile (p : string) (buffer : string) : IO unit := λ m,
  let w := os m in
  if bool_decide (p ∈ denied w) then (Throw (EACCES "open" p), m)
  else
    (Return tt,
     {| this := this m;
        os := {| files := <[p := buffer]> (files w); dirs := dirs w;
                 denied := denied w; draws := draws w; calls := calls w;
                 trace := trace w ++ [WriteFile p buffer] |} |}).

(** [fs.access(p)]. *)
Definition fs_access (p : string) : IO unit := λ m,
  match files (os m) !! p with
  | Some _ => (Return tt, m)
  | None => (Throw (ENOENT p), m)
  end.

(** ** The class [NanoBananaMCP] *)

Section NanoBananaMCP.

Context (env : Env).

(** [ConfigSchema.parse]: [geminiApiKey] is a string of length at least
    1, [workplacePath] an optional string (it comes from a [Config] or
    from the environment, and is one). *)
Definition ConfigSchema_parse (key : option string) (wp : option string) : exn + Config :=
  match key with
  | None => inl (ZodError ["Required"])
  | Some k =>
      if bool_decide (1 ≤ String.length k)%nat
      then inr {| geminiApiKey := k; workplacePath := wp |}
      else inl (ZodError ["Gemini API key is required"])
  end.

Definition parse (key wp : option string) : IO Config := λ m,
  match ConfigSchema_parse key wp with
  | inr c => (Return c, m)
  | inl e => (Throw e, m)
  end.

(** [const { ... } = request.params.arguments]. *)
Definition destructure (request : CallToolRequest) (props : string) : IO ToolArguments :=
  match arguments request with
  | Some a => mret a
  | None =>
      throw (Error ("Cannot destructure property '" +:+ props
                    +:+ "' of 'request.params.arguments' as it is undefined."))
  end.

(** [this.genAI!.models.generateContent(params)]. *)
Definition models_generateContent (params : GenerateContentParameters)
    : IO GenerateContentResponse := λ m,
  match genAI (this m) with
  | None => (Throw (Error "Cannot read properties of null (reading 'models')"), m)
  | Some client =>
      let w := os m in
      let m' :=
        {| this := this m;
           os := {| files := files w; dirs := dirs w; denied := denied w;
                    draws := draws w; calls := S (calls w);
                    trace := trace w ++ [GenerateContentCall client params] |} |} in
      match generateContent env (calls w) client params with
      | inr response => (Return response, m')
      | inl e => (Throw e, m')
      end
  end.

(** The file name of an image saved without [relative_save_path]:
    [`${prefix}-${timestamp}-${randomId}.png`]. *)
Definition stamped_name (prefix : string) (n : nat) : string :=
  let timestamp := replace_colon_dot (toISOString env n) in
  let randomId := substring_js 2 8 (random36 env n) in
  prefix +:+ "-" +:+ timestamp +:+ "-" +:+ randomId +:+ ".png".

Definition draw_name (prefix : string) : IO string := λ m,
  let w := os m in
  (Return (stamped_name prefix (draws w)),
   {| this := this m;
      os := {| files := files w; dirs := dirs w; denied := denied w;
               draws := S (draws w); calls := calls w; trace := trace w |} |}).

(** [let fileName; if (relative_save_path) ... else ...]. *)
Definition fileName_for (prefix : string) (relative_save_path : option string) : IO string :=
  match relative_save_path with
  | Some p => if truthy relative_save_path then mret (path.basename p) else draw_name prefix
  | None => draw_name prefix
  end.

Definition ensureConfigured (s : NanoBananaMCP) : bool :=
  bool_decide (config s ≠ None) && bool_decide (genAI s ≠ None).

Definition getMimeType (filePath : string) : string :=
  let ext := toLowerCase (path.extname filePath) in
  if bool_decide (ext = ".jpg" ∨ ext = ".jpeg") then "image/jpeg"
  else if bool_decide (ext = ".png") then "image/png"
  else if bool_decide (ext = ".webp") then "image/webp"
  else "image/jpeg".

(** [this.config?.workplacePath || process.cwd()]. *)
Definition workplaceDir (s : NanoBananaMCP) : string :=
  or_else (c ← config s; workplacePath c) (cwd env).

(** [relative_save_path ? path.join(workplaceDir, path.dirname(relative_save_path)) : workplaceDir]. *)
Definition imagesDir (s : NanoBananaMCP) (relative_save_path : option string) : string :=
  match relative_save_path with
  | Some p =>
      if truthy relative_save_path
      then path.join [workplaceDir s; path.dirname p]
      else workplaceDir s
  | None => workplaceDir s
  end.

(** [response.candidates && response.candidates[0]?.content?.parts]. *)
Definition response_parts (response : GenerateContentResponse) : option (list Part) :=
  cs ← candidates response;
  c ← head cs;
  ct ← candidate_content c;
  content_parts ct.

(** *** [configureGeminiToken] *)

Definition configured_text : string :=
  mark_ok +:+ " Gemini API token configured successfully! You can now use nano-banana image generation features.".

(** Past [ConfigSchema.parse] the key is a string, and [template] gives
    it back. *)
Definition configureGeminiToken (request : CallToolRequest) : IO CallToolResult :=
  args ← destructure request "apiKey";
  let apiKey := apiKey args in
  try_catch
    (wp ← read_this (λ s, c ← config s; workplacePath c);
     _ ← parse apiKey wp;
     _ ← update_this (set_config (Some {| geminiApiKey := template apiKey; workplacePath := wp |}));
     _ ← update_this (set_genAI (Some {| client_apiKey := template apiKey |}));
     _ ← update_this (set_configSource config_file);
     mret {| content := [TextItem configured_text] |})
    (λ error,
       match error with
       | ZodError errors =>
           throw (McpError InvalidParams
                    ("Invalid API key: " +:+ template (head errors)))
       | _ => throw error
       end).

(** *** The loop over the parts of a response *)

(** The locals [textContent], [savedFiles] and [content] of both image
    handlers. *)
Record locals := {
  textContent : string;
  savedFiles : list string;
  images : list ContentItem;
}.

Definition no_locals : locals :=
  {| textContent := ""; savedFiles := []; images := [] |}.

(** [for (const x of xs) body]. *)
Fixpoint for_of {A S} (xs : list A) (body : S → A → IO S) (s : S) : IO S :=
  match xs with
  | [] => mret s
  | x :: xs' => s' ← body s x; for_of xs' body s'
  end.

(** [if (part.text) textContent += part.text]. *)
Definition add_text (l : locals) (part : Part) : locals :=
  if truthy (part_text part)
  then {| textContent := textContent l +:+ template (part_text part);
          savedFiles := savedFiles l; images := images l |}
  else l.

(** [fs.writeFile], [savedFiles.push], [this.lastImagePath = filePath]. *)
Definition save_image (l : locals) (filePath data : string) : IO locals :=
  _ ← fs_writeFile filePath data;
  _ ← update_this (set_lastImagePath (Some filePath));
  mret {| textContent := textContent l;
          savedFiles := savedFiles l ++ [filePath]; images := images l |}.

(** [content.push({ type: 'image', data, mimeType: mimeType || 'image/png' })]. *)
Definition push_image (l : locals) (d : InlineData) (data : string) : locals :=
  {| textContent := textContent l; savedFiles := savedFiles l;
     images := images l ++ [ImageItem data (or_else (inline_mimeType d) "image/png")] |}.

(** The body of the loop of [generateImage] (lines 292-331). *)
Definition generate_part (dir : string) (relative_save_path : option string)
    (l : locals) (part : Part) : IO locals :=
  let l := add_text l part in
  match part_inlineData part with
  | Some d =>
      if truthy (inline_data d) then
        fileName ← fileName_for "generated" relative_save_path;
        let filePath := path.join [dir; fileName] in
        l ← save_image l filePath (template (inline_data d));
        mret (push_image l d (template (inline_data d)))
      else mret l
  | None => mret l
  end.

(** The body of the loop of [editImage] (lines 464-506): the file name
    is computed for every part with [inlineData], the file is written
    only when it has [data]. *)
Definition edit_part (dir : string) (relative_save_path : option string)
    (l : locals) (part : Part) : IO locals :=
  let l := add_text l part in
  match part_inlineData part with
  | Some d =>
      fileName ← fileName_for "edited" relative_save_path;
      let filePath := path.join [dir; fileName] in
      if truthy (inline_data d) then
        l ← save_image l filePath (template (inline_data d));
        mret (push_image l d (template (inline_data d)))
      else mret l
  | None => mret l
  end.

(** [savedFiles.map((f) => `- ${f}`).join('\n')]. *)
Definition bullet_list (fs : list string) : string :=
  join_with nl ((λ f, "- " +:+ f) <$> fs).

(** *** [generateImage] *)

Definition not_configured_text : string :=
  "Gemini API token not configured. Use configure_gemini_token first.".

Definition image_model : string := "gemini-2.5-flash-image-preview".

Definition generate_statusText (prompt : option string) (l : locals) : string :=
  let statusText :=
    mark_art +:+ " Image generated with nano-banana (Gemini 2.5 Flash Image)!"
    +:+ nl +:+ nl +:+ "Prompt: " +:+ dq +:+ template prompt +:+ dq in
  let statusText :=
    if bool_decide (textContent l ≠ "")
    then statusText +:+ nl +:+ nl +:+ "Description: " +:+ textContent l
    else statusText in
  if bool_decide (0 < length (savedFiles l))%nat then
    statusText
    +:+ nl +:+ nl +:+ mark_folder +:+ " Image saved to:" +:+ nl +:+ bullet_list (savedFiles l)
    +:+ nl +:+ nl +:+ mark_bulb +:+ " View the image by:"
    +:+ nl +:+ "1. Opening the file at the path above"
    +:+ nl +:+ "2. Clicking on " +:+ dq +:+ "Called generate_image" +:+ dq
    +:+ " in Cursor to expand the MCP call details"
    +:+ nl +:+ nl +:+ mark_cycle +:+ " To modify this image, use: continue_editing"
    +:+ nl +:+ mark_clipboard +:+ " To check current image info, use: get_last_image_info"
  else
    statusText
    +:+ nl +:+ nl +:+ "Note: No image was generated. The model may have returned only text."
    +:+ nl +:+ nl +:+ mark_bulb
    +:+ " Tip: Try running the command again - sometimes the first call needs to warm up the model.".

(** [content.unshift({ type: 'text', text: statusText }); return { content }]. *)
Definition result_of (statusText : string) (l : locals) : CallToolResult :=
  {| content := TextItem statusText :: images l |}.

(** The [try] statement of [generateImage] (lines 264-372).  The
    [console.error] of the [catch] writes to the standard error stream,
    which no handler reads; it is left out. *)
Definition generateImage_try (prompt relative_save_path : option string)
    : IO CallToolResult :=
  try_catch
    (response ← models_generateContent
       {| model := image_model; contents := PromptContents prompt |};
     dir ← read_this (λ s, imagesDir s relative_save_path);
     _ ← fs_mkdir dir;
     l ← match response_parts response with
         | Some parts => for_of parts (generate_part dir relative_save_path) no_locals
         | None => mret no_locals
         end;
     mret (result_of (generate_statusText prompt l) l))
    (λ error,
       throw (McpError InternalError
                ("Failed to generate image: " +:+ error_message error))).

Definition generateImage (request : CallToolRequest) : IO CallToolResult :=
  configured ← read_this ensureConfigured;
  if negb configured then throw (McpError InvalidRequest not_configured_text)
  else
    args ← destructure request "prompt";
    generateImage_try (prompt args) (relative_save_path args).

(** *** [editImage] *)

(** The body of the loop over [referenceImages] (lines 411-427): a
    reference that cannot be read is passed over. *)
Definition reference_part (imageParts : list RequestPart) (refPath : string)
    : IO (list RequestPart) :=
  try_catch
    (refBase64 ← fs_readFile (Some refPath);
     mret (imageParts ++ [InlinePart refBase64 (getMimeType refPath)]))
    (λ _, mret imageParts).

(** [referenceImages && referenceImages.length > 0]. *)
Definition has_references (referenceImages : option (list string)) : bool :=
  match referenceImages with
  | Some refs => bool_decide (0 < length refs)%nat
  | None => false
  end.

Definition edit_statusText (imagePath prompt : option string)
    (referenceImages : option (list string)) (l : locals) : string :=
  let statusText :=
    mark_art +:+ " Image edited with nano-banana!"
    +:+ nl +:+ nl +:+ "Original: " +:+ template imagePath
    +:+ nl +:+ "Edit prompt: " +:+ dq +:+ template prompt +:+ dq in
  let statusText :=
    if has_references referenceImages
    then statusText +:+ nl +:+ nl +:+ "Reference images used:" +:+ nl
         +:+ bullet_list (default [] referenceImages)
    else statusText in
  let statusText :=
    if bool_decide (textContent l ≠ "")
    then statusText +:+ nl +:+ nl +:+ "Description: " +:+ textContent l
    else statusText in
  if bool_decide (0 < length (savedFiles l))%nat then
    statusText
    +:+ nl +:+ nl +:+ mark_folder +:+ " Edited image saved to:" +:+ nl
    +:+ bullet_list (savedFiles l)
    +:+ nl +:+ nl +:+ mark_bulb +:+ " View the edited image by:"
    +:+ nl +:+ "1. Opening the file at the path above"
    +:+ nl +:+ "2. Clicking on " +:+ dq +:+ "Called edit_image" +:+ dq
    +:+ " in Cursor to expand the MCP call details"
    +:+ nl +:+ nl +:+ mark_cycle +:+ " To continue editing, use: continue_editing"
    +:+ nl +:+ mark_clipboard +:+ " To check current image info, use: get_last_image_info"
  else
    statusText
    +:+ nl +:+ nl +:+ "Note: No edited image was generated."
    +:+ nl +:+ nl +:+ mark_bulb
    +:+ " Tip: Try running the command again - sometimes the first call needs to warm up the model.".

(** The [try] statement of [editImage] (lines 393-551). *)
Definition editImage_try (imagePath prompt relative_save_path : option string)
    (referenceImages : option (list string)) : IO CallToolResult :=
  try_catch
    (imageBase64 ← fs_readFile imagePath;
     let mimeType := getMimeType (template imagePath) in
     let imageParts := [InlinePart imageBase64 mimeType] in
     imageParts ← (if has_references referenceImages
                   then for_of (default [] referenceImages) reference_part imageParts
                   else mret imageParts);
     let imageParts := imageParts ++ [TextPart prompt] in
     response ← models_generateContent
       {| model := image_model; contents := PartsContents imageParts |};
     dir ← read_this (λ s, imagesDir s relative_save_path);
     _ ← fs_mkdir dir;
     l ← match response_parts response with
         | Some parts => for_of parts (edit_part dir relative_save_path) no_locals
         | None => mret no_locals
         end;
     mret (result_of (edit_statusText imagePath prompt referenceImages l) l))
    (λ error,
       throw (McpError InternalError
                ("Failed to edit image: " +:+ error_message error))).

Definition editImage (request : CallToolRequest) : IO CallToolResult :=
  configured ← read_this ensureConfigured;
  if negb configured then throw (McpError InvalidRequest not_configured_text)
  else
    args ← destructure request "imagePath";
    editImage_try (imagePath args) (prompt args) (relative_save_path args)
      (referenceImages args).

(** *** [getConfigurationStatus] *)

Definition source_environment_text : string :=
  nl +:+ mark_pin +:+ " Source: Environment variable (GEMINI_API_KEY)"
  +:+ nl +:+ mark_bulb +:+ " This is the most secure configuration method.".

Definition source_config_file_text : string :=
  nl +:+ mark_pin +:+ " Source: Local configuration file (.nano-banana-config.json)"
  +:+ nl +:+ mark_bulb +:+ " Consider using environment variables for better security.".

Definition configured_status_text : string :=
  mark_ok +:+ " Gemini API token is configured and ready to use".

Definition unconfigured_status_text : string :=
  mark_cross +:+ " Gemini API token is not configured".

Definition configuration_options_text : string :=
  nl +:+ nl +:+ mark_memo +:+ " Configuration options:"
  +:+ nl +:+ "1. " +:+ mark_first +:+ " Environment variables (Recommended)"
  +:+ nl +:+ "   - GEMINI_API_KEY: Your API key (required)"
  +:+ nl +:+ "   - WORKPLACE_PATH: Custom workplace directory (optional)"
  +:+ nl +:+ "2. " +:+ mark_second +:+ " Use configure_gemini_token tool"
  +:+ nl +:+ nl +:+ mark_bulb
  +:+ " For the most secure setup, add this to your MCP configuration:"
  +:+ nl +:+ dq +:+ "env" +:+ dq +:+ ": {"
  +:+ nl +:+ "  " +:+ dq +:+ "GEMINI_API_KEY" +:+ dq +:+ ": "
  +:+ dq +:+ "your-api-key-here" +:+ dq +:+ ","
  +:+ nl +:+ "  " +:+ dq +:+ "WORKPLACE_PATH" +:+ dq +:+ ": "
  +:+ dq +:+ "/path/to/your/workplace" +:+ dq
  +:+ nl +:+ "}".

(** The [switch] on [this.configSource]. *)
Definition source_text (c : ConfigSource) : string :=
  match c with
  | environment => source_environment_text
  | config_file => source_config_file_text
  | not_configured => ""
  end.

(** The lines on the workplace directory that follow. *)
Definition workplace_text (s : NanoBananaMCP) : string :=
  nl +:+ nl +:+ mark_folder +:+ " Images will be saved to: " +:+ workplaceDir s
  +:+ (if truthy (c ← config s; workplacePath c)
       then " (custom workplace path)"
       else " (current working directory)")
  +:+ nl +:+ mark_bulb
  +:+ " Configure workplace_path via environment variable WORKPLACE_PATH.".

Definition sourceInfo_of (s : NanoBananaMCP) : string :=
  source_text (configSource s) +:+ workplace_text s.

Definition status_text (s : NanoBananaMCP) : string :=
  if ensureConfigured s
  then configured_status_text +:+ sourceInfo_of s
  else unconfigured_status_text +:+ configuration_options_text.

Definition getConfigurationStatus : IO CallToolResult :=
  text ← read_this status_text;
  mret {| content := [TextItem text] |}.

(** *** [getLastImageInfo] *)

Definition no_previous_image_text : string :=
  mark_camera +:+ " No previous image found." +:+ nl +:+ nl
  +:+ "Please generate or edit an image first, then this command will show information about your last image.".

(** [Math.round(size / 1024)] on a file size. *)
Definition round_kb (size : nat) : nat := ((size + 512) / 1024)%nat.

Definition last_image_header (p : string) : string :=
  mark_camera +:+ " Last Image Information:" +:+ nl +:+ nl +:+ "Path: " +:+ p.

Definition last_image_found_text (p : string) (size : nat) (mtime : string) : string :=
  last_image_header p
  +:+ nl +:+ "File Size: " +:+ show_nat (round_kb size) +:+ " KB"
  +:+ nl +:+ "Last Modified: " +:+ mtime
  +:+ nl +:+ nl +:+ mark_bulb
  +:+ " Use continue_editing to make further changes to this image.".

Definition last_image_missing_text (p : string) : string :=
  last_image_header p
  +:+ nl +:+ "Status: " +:+ mark_cross +:+ " File not found"
  +:+ nl +:+ nl +:+ mark_bulb
  +:+ " The image file may have been moved or deleted. Please generate a new image.".

Definition getLastImageInfo : IO CallToolResult :=
  last ← read_this lastImagePath;
  if negb (truthy last) then mret {| content := [TextItem no_previous_image_text] |}
  else
    let p := template last in
    try_catch
      (_ ← fs_access p;
       let stats := stat env p in
       mret {| content := [TextItem (last_image_found_text p stats.1 stats.2)] |})
      (λ _, mret {| content := [TextItem (last_image_missing_text p)] |}).

(** *** [loadConfig] and the request handler *)

Definition loadConfig : IO unit :=
  let envApiKey := GEMINI_API_KEY env in
  let envWorkplacePath := WORKPLACE_PATH env in
  loaded ← (if truthy envApiKey then
              try_catch
                (c ← parse envApiKey envWorkplacePath;
                 _ ← update_this (set_config (Some c));
                 _ ← update_this (set_genAI (Some {| client_apiKey := geminiApiKey c |}));
                 _ ← update_this (set_configSource environment);
                 mret true)
                (λ _, mret false)
            else mret false);
  if loaded : bool then mret tt
  else update_this (set_configSource not_configured).

(** The [switch] of the handler registered for [CallToolRequestSchema]. *)
Definition dispatch (request : CallToolRequest) : IO CallToolResult :=
  if bool_decide (name request = "configure_gemini_token") then configureGeminiToken request
  else if bool_decide (name request = "generate_image") then generateImage request
  else if bool_decide (name request = "edit_image") then editImage request
  else if bool_decide (name request = "get_configuration_status") then getConfigurationStatus
  else if bool_decide (name request = "get_last_image_info") then getLastImageInfo
  else throw (McpError MethodNotFound ("Unknown tool: " +:+ name request)).

(** Its [catch]: an [McpError] goes through, anything else is wrapped. *)
Definition normalize_error (error : exn) : IO CallToolResult :=
  match error with
  | McpError _ _ => throw error
  | _ => throw (McpError InternalError
                  ("Tool execution failed: " +:+ error_message error))
  end.

Definition handler (request : CallToolRequest) : IO CallToolResult :=
  try_catch (dispatch request) normalize_error.

(** The server after [run]: constructed, then [loadConfig]. *)
Definition boot (w : World) : machine :=
  (loadConfig {| this := new_NanoBananaMCP; os := w |}).2.

(** A session: the calls of the client, one after the other. *)
Fixpoint serve (requests : list CallToolRequest) (m : machine) : machine :=
  match requests with
  | [] => m
  | r :: rest => serve rest (handler r m).2
  end.

End NanoBananaMCP.

(** ** Vocabulary of the statements *)

(** The image of a part, when it carries one: [part.inlineData?.data]
    is a non-empty string. *)
Definition image_of (p : Part) : option InlineData :=
  d ← part_inlineData p;
  if truthy (inline_data d) then Some d else None.

(** The image parts of a response, in order. *)
Definition image_parts (response : GenerateContentResponse) : list InlineData :=
  omap image_of (default [] (response_parts response)).

(** The texts of a response, concatenated in order. *)
Definition text_of (p : Part) : string :=
  if truthy (part_text p) then template (part_text p) else "".


(** The entry of the tool result for an image. *)
Definition image_item (d : InlineData) : ContentItem :=
  ImageItem (template (inline_data d)) (or_else (inline_mimeType d) "image/png").

(** The request part of a reference image that can be read. *)
Definition reference_read (w : World) (refPath : string) : option RequestPart :=
  buffer ← files w !! refPath;
  Some (InlinePart buffer (getMimeType refPath)).

Definition is_write (e : event) : bool :=
  match e with
  | WriteFile _ _ => true
  | _ => false
  end.

Definition is_request (e : event) : bool :=
  match e with
  | GenerateContentCall _ _ => true
  | _ => false
  end.

Definition write_event (w : string * string) : event := WriteFile w.1 w.2.

(** The file system after the writes [ws], first one first. *)
Definition write_all (fs : gmap string string) (ws : list (string * string)) : gmap string string :=
  foldl (λ fs w, <[w.1 := w.2]> fs) fs ws.

(** The prefix of the generated file names of a tool. *)
Definition name_prefix (tool : string) : string :=
  if bool_decide (tool = "generate_image") then "generated" else "edited".

(** What the file name of a saved image may be: the base name of the
    [relative_save_path] when that is a non-empty string, and otherwise a
    name stamped with the time and a random token. *)
Definition file_name_ok (env : Env) (prefix : string) (relative_save_path : option string)
    (fileName : string) : Prop :=
  (∃ p, relative_save_path = Some p ∧ p ≠ "" ∧ fileName = path.basename p)
  ∨ (truthy relative_save_path = false ∧ ∃ n, fileName = stamped_name env prefix n).

(** [effects pre ws m m']: from [m] to [m'] the events [pre] happened,
    none of them a write, then the files [ws] were written one after the
    other; the last one written is the last image path, and nothing else
    of the server or of the files changed. *)
Record effects (pre : list event) (ws : list (string * string)) (m m' : machine) : Prop := {
  effects_pre : Forall (λ e, is_write e = false) pre;
  effects_trace : trace (os m') = trace (os m) ++ pre ++ (write_event <$> ws);
  effects_files : files (os m') = write_all (files (os m)) ws;
  effects_denied : denied (os m') = denied (os m);
  effects_genAI : genAI (this m') = genAI (this m);
  effects_config : config (this m') = config (this m);
  effects_configSource : configSource (this m') = configSource (this m);
  effects_lastImagePath :
    lastImagePath (this m')
    = match last ws with
      | Some w => Some w.1
      | None => lastImagePath (this m)
      end;
}.

(** The locals of the loop after the parts [ps], the files [ws] having
    been written for their images. *)
Definition locals_after (l : locals) (ps : list Part) (ws : list (string * string)) : locals :=
  {| textContent := foldl (λ acc p, acc +:+ text_of p) (textContent l) ps;
     savedFiles := savedFiles l ++ ws.*1;
     images := images l ++ (image_item <$> omap image_of ps) |}.

(** The buffers written for the images of the parts [ps]. *)
Definition buffers_of (ps : list Part) : list string :=
  (λ d, template (inline_data d)) <$> omap image_of ps.

(** A file of the images directory under an admissible name. *)
Definition saved_in (env : Env) (prefix : string) (relative_save_path : option string)
    (dir : string) (file : string) : Prop :=
  ∃ fileName,
    file_name_ok env prefix relative_save_path fileName
    ∧ file = path.join [dir; fileName].

(** What a run [r] of the loop over the parts [ps] amounts to, started
    with the locals [l] on the machine [m]: some files were written for
    the images, in order and under admissible names; the loop either went
    through all parts, or stopped at a write that the file system
    refused, the files written being those of the images before it. *)
Definition loop_post (env : Env) (prefix dir : string) (relative_save_path : option string)
    (ps : list Part) (l : locals) (m : machine) (r : outcome locals * machine) : Prop :=
  ∃ ws,
    effects [] ws m r.2
    ∧ Forall (λ w, saved_in env prefix relative_save_path dir w.1) ws
    ∧ match r.1 with
      | Return l' => l' = locals_after l ps ws ∧ ws.*2 = buffers_of ps
      | Throw e =>
          (length ws < length (buffers_of ps))%nat
          ∧ (∃ rest, buffers_of ps = ws.*2 ++ rest)
          ∧ ∃ file,
              saved_in env prefix relative_save_path dir file
              ∧ file ∈ denied (os m)
              ∧ e = EACCES "open" file
      end.

(** What a run [r] of an image tool amounts to once the service has
    answered with the parts [ps] and the images directory [dir] is there:
    after the events [pre], files were written as in [loop_post]; the
    call returns the status text followed by the images, or fails on a
    write that the file system refused. *)
Definition call_post (env : Env) (prefix failure : string) (statusText : locals → string)
    (relative_save_path : option string) (dir : string) (ps : list Part)
    (pre : list event) (m : machine) (r : outcome CallToolResult * machine) : Prop :=
  ∃ ws,
    effects pre ws m r.2
    ∧ Forall (λ w, saved_in env prefix relative_save_path dir w.1) ws
    ∧ match r.1 with
      | Return res =>
          res = result_of (statusText (locals_after no_locals ps ws))
                  (locals_after no_locals ps ws)
          ∧ ws.*2 = buffers_of ps
      | Throw e =>
          (length ws < length (buffers_of ps))%nat
          ∧ (∃ rest, buffers_of ps = ws.*2 ++ rest)
          ∧ ∃ file,
              saved_in env prefix relative_save_path dir file
              ∧ file ∈ denied (os m)
              ∧ e = McpError InternalError
                      (failure +:+ error_message (EACCES "open" file))
      end.

(** The machine after a request was handed to the client. *)
Definition requested (client : GoogleGenAI) (params : GenerateContentParameters)
    (m : machine) : machine :=
  {| this := this m;
     os := {| files := files (os m); dirs := dirs (os m); denied := denied (os m);
              draws := draws (os m); calls := S (calls (os m));
              trace := trace (os m) ++ [GenerateContentCall client params] |} |}.

(** The machine after a directory was made. *)
Definition made (dir : string) (m : machine) : machine :=
  {| this := this m;
     os := {| files := files (os m); dirs := {[dir]} ∪ dirs (os m);
              denied := denied (os m); draws := draws (os m);
              calls := calls (os m); trace := trace (os m) ++ [Mkdir dir] |} |}.

(** The parts of the request of [edit_image], in the words of the
    specification: the primary image, then the reference images that can
    be read, in the order given, then the prompt. *)
Definition edit_parts (w : World) (image buffer : string)
    (referenceImages : option (list string)) (prompt : option string) : list RequestPart :=
  InlinePart buffer (getMimeType image)
  :: omap (reference_read w) (default [] referenceImages) ++ [TextPart prompt].

(** The request that an image tool hands to the client, if it gets that
    far: [edit_image] first reads the primary image. *)
Definition outbound (tool : string) (args : ToolArguments) (w : World)
    : option GenerateContentParameters :=
  if bool_decide (tool = "generate_image") then
    Some {| model := image_model; contents := PromptContents (prompt args) |}
  else
    image ← imagePath args;
    buffer ← files w !! image;
    Some {| model := image_model;
            contents := PartsContents
                          (edit_parts w image buffer (referenceImages args) (prompt args)) |}.

(** The status text of an image tool, from the locals of its loop. *)
Definition statusText_of (tool : string) (args : ToolArguments) (l : locals) : string :=
  if bool_decide (tool = "generate_image") then generate_statusText (prompt args) l
  else edit_statusText (imagePath args) (prompt args) (referenceImages args) l.

(** The opening of the message of its failures. *)
Definition failure_of (tool : string) : string :=
  if bool_decide (tool = "generate_image") then "Failed to generate image: "
  else "Failed to edit image: ".



(** The names of the [switch] of the request handler. *)
Definition tool_names : list string :=
  ["configure_gemini_token"; "generate_image"; "edit_image";
   "get_configuration_status"; "get_last_image_info"].

(** The fields [config], [genAI] and [configSource] go together: all
    three unset, or a configuration with a non-empty key, the client
    made from that key, and a source that says where it came from. *)
Definition well_formed (s : NanoBananaMCP) : Prop :=
  match config s, genAI s with
  | None, None => configSource s = not_configured
  | Some c, Some g =>
      geminiApiKey c ≠ ""
      ∧ client_apiKey g = geminiApiKey c
      ∧ configSource s ≠ not_configured
  | _, _ => False
  end.

(** The server that [configureGeminiToken] leaves when it accepts [key]. *)
Definition configured_with (key : string) (m : machine) : machine :=
  {| this :=
       {| genAI := Some {| client_apiKey := key |};
          config := Some {| geminiApiKey := key;
                            workplacePath := c ← config (this m); workplacePath c |};
          lastImagePath := lastImagePath (this m);
          configSource := config_file |};
     os := os m |}.

(** The write of an image saved under the name stamped with the [n]-th
    reading of the clock and of the random source. *)
Definition stamped_write (env : Env) (prefix dir : string) (nw : nat * string) : event :=
  WriteFile (path.join [dir; stamped_name env prefix nw.1]) nw.2.

(** From [m] to [m'] images were written under stamped names, each with
    a reading of its own, taken between the two machines. *)
Definition fresh_draws (env : Env) (prefix dir : string) (m m' : machine) : Prop :=
  (draws (os m) ≤ draws (os m'))%nat
  ∧ ∃ nws,
      trace (os m') = trace (os m) ++ (stamped_write env prefix dir <$> nws)
      ∧ NoDup nws.*1
      ∧ Forall (λ n, (draws (os m) ≤ n < draws (os m'))%nat) nws.*1.

(** The body of the loop of an image tool. *)
Definition part_of (env : Env) (tool : string) (dir : string)
    (relative_save_path : option string) : locals → Part → IO locals :=
  if bool_decide (tool = "generate_image")
  then generate_part env dir relative_save_path
  else edit_part env dir relative_save_path.

(** ** A concrete server, for the examples *)
Module demo.

Definition text (t : string) : Part :=
  {| part_text := Some t; part_inlineData := None |}.

Definition image (d : string) (mimeType : option string) : Part :=
  {| part_text := None;
     part_inlineData := Some {| inline_data := Some d; inline_mimeType := mimeType |} |}.

Definition response (ps : list Part) : GenerateContentResponse :=
  {| candidates := Some [{| candidate_content := Some {| content_parts := Some ps |} |}] |}.

(** The service answers a prompt by name; an edit gets one image. *)
Definition service (n : nat) (c : GoogleGenAI) (p : GenerateContentParameters)
    : exn + GenerateContentResponse :=
  match contents p with
  | PromptContents None => inl (Error "contents are required")
  | PromptContents (Some q) =>
      if bool_decide (q = "two cats")
      then inr (response [text "Two cats."; image "Q0FUMQ==" (Some "image/webp");
                          image "Q0FUMg==" None])
      else if bool_decide (q = "a poem")
      then inr (response [text "Roses are red."])
      else inr (response [image "Q0FU" (Some "image/png")])
  | PartsContents _ => inr (response [text "Done."; image "SEFU" None])
  end.

Definition env : Env :=
  {| generateContent := service;
     toISOString := λ n, "2025-09-01T10:20:3" +:+ show_nat n +:+ ".456Z";
     random36 := λ n, "0.k3j9x2m1q" +:+ show_nat n;
     stat := λ _, (2600, "9/1/2025, 10:20:30 AM")%nat;
     cwd := "/home/user";
     GEMINI_API_KEY := None;
     WORKPLACE_PATH := None |}.

Definition world : World :=
  {| files := {["/in/photo.PNG" := "UEhPVE8="; "/in/style.webp" := "U1RZTEU="]};
     dirs := ∅; denied := ∅; draws := 0; calls := 0; trace := [] |}.

(** Just started, with no credential in the environment. *)
Definition fresh : machine := boot env world.

Definition call (tool : string) (args : ToolArguments) : CallToolRequest :=
  {| name := tool; arguments := Some args |}.

Definition with_apiKey (k : string) : ToolArguments :=
  {| apiKey := Some k; prompt := None; imagePath := None;
     relative_save_path := None; referenceImages := None |}.

Definition with_prompt (q : string) (save : option string) : ToolArguments :=
  {| apiKey := None; prompt := Some q; imagePath := None;
     relative_save_path := save; referenceImages := None |}.

Definition with_image (img q : string) (refs : option (list string)) : ToolArguments :=
  {| apiKey := None; prompt := Some q; imagePath := Some img;
     relative_save_path := None; referenceImages := refs |}.

(** Configured by the tool. *)
Definition ready : machine :=
  (handler env (call "configure_gemini_token" (with_apiKey "AIza-demo")) fresh).2.

(** Started with a relative [WORKPLACE_PATH]. *)
Definition relative_env : Env :=
  {| generateContent := service;
     toISOString := toISOString env;
     random36 := random36 env;
     stat := stat env;
     cwd := "/home/user";
     GEMINI_API_KEY := Some "AIza-demo";
     WORKPLACE_PATH := Some "images" |}.

(** Started with an absolute [WORKPLACE_PATH] and a key. *)
Definition hosted_env : Env :=
  {| generateContent := service;
     toISOString := toISOString env;
     random36 := random36 env;
     stat := stat env;
     cwd := "/home/user";
     GEMINI_API_KEY := Some "AIza-old";
     WORKPLACE_PATH := Some "/srv/images" |}.

Definition hosted : machine := boot hosted_env world.

(** The calls of the examples. *)
Definition configure : CallToolRequest :=
  call "configure_gemini_token" (with_apiKey "AIza-demo").
Definition configure_empty : CallToolRequest :=
  call "configure_gemini_token" (with_apiKey "").
Definition status : CallToolRequest :=
  {| name := "get_configuration_status"; arguments := None |}.
Definition last_image : CallToolRequest :=
  {| name := "get_last_image_info"; arguments := None |}.
Definition generate (q : string) (save : option string) : CallToolRequest :=
  call "generate_image" (with_prompt q save).
Definition generate_nothing : CallToolRequest :=
  call "generate_image" no_arguments.
Definition edit_nothing : CallToolRequest :=
  call "edit_image" no_arguments.
Definition edit : CallToolRequest :=
  call "edit_image"
    (with_image "/in/photo.PNG" "add a hat"
       (Some ["/in/missing.png"; "/in/style.webp"])).

Definition save_pic : CallToolRequest := generate "a cat" (Some "out/pic.png").

(** Started with the relative [WORKPLACE_PATH]. *)
Definition relative : machine := boot relative_env world.

Definition configure_bare : CallToolRequest :=
  {| name := "configure_gemini_token"; arguments := None |}.
Definition configure_old : CallToolRequest :=
  call "configure_gemini_token" (with_apiKey "AIza-old").
Definition continue_editing : CallToolRequest :=
  {| name := "continue_editing"; arguments := None |}.
Definition edit_missing : CallToolRequest :=
  call "edit_image" (with_image "/in/missing.png" "add a hat" None).

(** A file system in which the working directory cannot be made. *)
Definition readonly_world : World :=
  {| files := files world; dirs := ∅; denied := {["/home/user"]};
     draws := 0; calls := 0; trace := [] |}.

Definition readonly : machine := serve env [configure] (boot env readonly_world).

(** A file system that refuses the third generated file. *)
Definition tight_world : World :=
  {| files := files world; dirs := ∅;
     denied := {["/home/user/generated-2025-09-01T10-20-32-456Z-k3j9x2.png"]};
     draws := 0; calls := 0; trace := [] |}.

(** Configured, one image generated. *)
Definition after_first : machine :=
  serve env [configure; generate "a cat" None] (boot env tight_world).

End demo.

(** ** Properties *)

Section Properties.

Context (env : Env).

(** Run the binds of a computation, keeping the binds on [option]. *)
Ltac io :=
  change (@mbind IO IO_bind) with IO_bind;
  change (@mret IO IO_ret) with IO_ret;
  cbv [IO_bind IO_ret throw try_catch read_this update_this parse destructure].

(** *** The dispatcher *)

Lemma dispatch_configure request :
  name request = "configure_gemini_token" →
  dispatch env request = configureGeminiToken request.
Proof. intros E. unfold dispatch. rewrite E. reflexivity. Qed.

Lemma dispatch_generate request :
  name request = "generate_image" →
  dispatch env request = generateImage env request.
Proof. intros E. unfold dispatch. rewrite E. reflexivity. Qed.

Lemma dispatch_edit request :
  name request = "edit_image" →
  dispatch env request = editImage env request.
Proof. intros E. unfold dispatch. rewrite E. reflexivity. Qed.

Lemma dispatch_status request :
  name request = "get_configuration_status" →
  dispatch env request = getConfigurationStatus env.
Proof. intros E. unfold dispatch. rewrite E. reflexivity. Qed.

Lemma dispatch_last request :
  name request = "get_last_image_info" →
  dispatch env request = getLastImageInfo env.
Proof. intros E. unfold dispatch. rewrite E. reflexivity. Qed.

Lemma dispatch_unknown request :
  name request ≠ "configure_gemini_token" →
  name request ≠ "generate_image" →
  name request ≠ "edit_image" →
  name request ≠ "get_configuration_status" →
  name request ≠ "get_last_image_info" →
  dispatch env request = throw (McpError MethodNotFound ("Unknown tool: " +:+ name request)).
Proof.
  intros. unfold dispatch.
  rewrite !bool_decide_eq_false_2 by assumption. reflexivity.
Qed.

(** *** The configuration check *)

Lemma generateImage_unconfigured request m :
  ensureConfigured (this m) = false →
  generateImage env request m
  = (Throw (McpError InvalidRequest not_configured_text), m).
Proof. intros H. unfold generateImage. io. rewrite H. reflexivity. Qed.

Lemma editImage_unconfigured request m :
  ensureConfigured (this m) = false →
  editImage env request m
  = (Throw (McpError InvalidRequest not_configured_text), m).
Proof. intros H. unfold editImage. io. rewrite H. reflexivity. Qed.

Lemma ensureConfigured_true s :
  ensureConfigured s = true ↔ (∃ c g, config s = Some c ∧ genAI s = Some g).
Proof.
  unfold ensureConfigured. split.
  - intros H. apply andb_true_iff in H as [H1 H2].
    apply bool_decide_eq_true in H1. apply bool_decide_eq_true in H2.
    destruct (config s) as [c|]; [|done]. destruct (genAI s) as [g|]; [|done].
    eauto.
  - intros (c & g & -> & ->). reflexivity.
Qed.

(** C1.  A [generate_image] or [edit_image] call that arrives while no
    configuration is live throws the protocol error [InvalidRequest]
    with the message that tells the caller to use
    [configure_gemini_token] first, and hands the machine back as it
    was: no request was sent to the service, no directory made, no file
    written, no field of the server changed. *)
Theorem unconfigured_call_rejected request m :
  name request = "generate_image" ∨ name request = "edit_image" →
  config (this m) = None →
  handler env request m
  = (Throw (McpError InvalidRequest
              "Gemini API token not configured. Use configure_gemini_token first."), m).
Proof.
  intros Hn Hc.
  assert (ensureConfigured (this m) = false) as Hu.
  { unfold ensureConfigured. rewrite Hc. reflexivity. }
  unfold handler, try_catch.
  destruct Hn as [Hn|Hn].
  - rewrite (dispatch_generate _ Hn), (generateImage_unconfigured _ _ Hu).
    reflexivity.
  - rewrite (dispatch_edit _ Hn), (editImage_unconfigured _ _ Hu).
    reflexivity.
Qed.

(** *** [configure_gemini_token] *)

Lemma configure_rejected request args m errors :
  arguments request = Some args →
  ConfigSchema_parse (apiKey args) (c ← config (this m); workplacePath c)
  = inl (ZodError errors) →
  configureGeminiToken request m
  = (Throw (McpError InvalidParams ("Invalid API key: " +:+ template (head errors))), m).
Proof.
  intros Ha Hp. unfold configureGeminiToken. io. rewrite Ha. simpl.
  rewrite Hp. reflexivity.
Qed.

Lemma configure_accepted request args key m :
  arguments request = Some args →
  apiKey args = Some key →
  key ≠ "" →
  configureGeminiToken request m
  = (Return {| content := [TextItem configured_text] |},
     {| this :=
          {| genAI := Some {| client_apiKey := key |};
             config := Some {| geminiApiKey := key;
                               workplacePath := c ← config (this m); workplacePath c |};
             lastImagePath := lastImagePath (this m);
             configSource := config_file |};
        os := os m |}).
Proof.
  intros Ha Hk Hne. unfold configureGeminiToken. io. rewrite Ha. simpl.
  unfold ConfigSchema_parse. rewrite Hk.
  rewrite bool_decide_eq_true_2; [reflexivity|].
  destruct key; [done|simpl; lia].
Qed.

(** C3.  [configure_gemini_token] with the empty string as [apiKey]
    throws the protocol error [InvalidParams] (with the message of the
    schema), and the machine is handed back as it was: the [config]
    with its key and workplace path, the client [genAI] and every
    other field are the ones from before the call. *)
Theorem empty_credential_rejected request args m :
  name request = "configure_gemini_token" →
  arguments request = Some args →
  apiKey args = Some "" →
  handler env request m
  = (Throw (McpError InvalidParams "Invalid API key: Gemini API key is required"), m).
Proof.
  intros Hn Ha Hk. unfold handler, try_catch.
  rewrite (dispatch_configure _ Hn).
  rewrite (configure_rejected _ args _ ["Gemini API key is required"] Ha).
  - reflexivity.
  - rewrite Hk. reflexivity.
Qed.

(** C4.  [configure_gemini_token] with a non-empty [apiKey] succeeds,
    and the new [config] holds that key together with the workplace
    path of the [config] that was live before (none if there was
    none). *)
Theorem configure_keeps_workplacePath request args key m :
  name request = "configure_gemini_token" →
  arguments request = Some args →
  apiKey args = Some key →
  key ≠ "" →
  (handler env request m).1 = Return {| content := [TextItem configured_text] |}
  ∧ config (this (handler env request m).2)
    = Some {| geminiApiKey := key;
              workplacePath := c ← config (this m); workplacePath c |}.
Proof.
  intros Hn Ha Hk Hne. unfold handler, try_catch.
  rewrite (dispatch_configure _ Hn), (configure_accepted _ _ _ _ Ha Hk Hne).
  split; reflexivity.
Qed.

(** C9.  After [configure_gemini_token] with a non-empty [apiKey], the
    next [get_configuration_status] answers with the line that says the
    token is configured, followed by the source lines of [config_file]
    (the source the tool sets, "Manual configuration via tool"), which
    are not the lines of the [environment] source; the field
    [configSource] is [config_file]. *)
Theorem status_after_configure request args key query m :
  name request = "configure_gemini_token" →
  arguments request = Some args →
  apiKey args = Some key →
  key ≠ "" →
  name query = "get_configuration_status" →
  let m' := (handler env request m).2 in
  handler env query m'
  = (Return {| content :=
                 [TextItem (configured_status_text
                            +:+ source_config_file_text
                            +:+ workplace_text env (this m'))] |}, m')
  ∧ configSource (this m') = config_file
  ∧ source_config_file_text ≠ source_environment_text.
Proof.
  intros Hn Ha Hk Hne Hq m'.
  assert (m' = (configureGeminiToken request m).2) as Hm'.
  { unfold m', handler, try_catch. rewrite (dispatch_configure _ Hn).
    rewrite (configure_accepted _ _ _ _ Ha Hk Hne). reflexivity. }
  rewrite (configure_accepted _ _ _ _ Ha Hk Hne) in Hm'. simpl in Hm'.
  split; [|split].
  - unfold handler, try_catch. rewrite (dispatch_status _ Hq).
    unfold getConfigurationStatus. io. unfold status_text, sourceInfo_of.
    rewrite Hm'. reflexivity.
  - rewrite Hm'. reflexivity.
  - unfold source_config_file_text, source_environment_text. intros H.
    vm_compute in H. discriminate.
Qed.



(** *** Effects of the loop over the parts *)

Lemma effects_refl m : effects [] [] m m.
Proof. split; try reflexivity; [constructor | simpl; by rewrite !app_nil_r]. Qed.

Lemma write_all_app fs ws1 ws2 :
  write_all fs (ws1 ++ ws2) = write_all (write_all fs ws1) ws2.
Proof. unfold write_all. apply foldl_app. Qed.

Lemma effects_trans pre ws1 ws2 m m1 m2 :
  effects pre ws1 m m1 → effects [] ws2 m1 m2 → effects pre (ws1 ++ ws2) m m2.
Proof.
  intros [] []. split.
  - assumption.
  - rewrite effects_trace1, effects_trace0, fmap_app. simpl.
    by rewrite <- !app_assoc.
  - by rewrite effects_files1, effects_files0, write_all_app.
  - congruence.
  - congruence.
  - congruence.
  - congruence.
  - rewrite effects_lastImagePath1, effects_lastImagePath0.
    destruct ws2 as [|w ws2] using rev_ind.
    + by rewrite app_nil_r.
    + by rewrite app_assoc, !last_snoc.
Qed.

Lemma effects_event e m w' :
  is_write e = false →
  files w' = files (os m) → denied w' = denied (os m) →
  trace w' = trace (os m) ++ [e] →
  effects [e] [] m {| this := this m; os := w' |}.
Proof.
  intros He Hf Hd Ht. split; simpl; try done.
  - by constructor.
Qed.

Lemma effects_quiet m w' :
  files w' = files (os m) → denied w' = denied (os m) →
  trace w' = trace (os m) →
  effects [] [] m {| this := this m; os := w' |}.
Proof.
  intros Hf Hd Ht. split; simpl; try done.
  by rewrite Ht, app_nil_r.
Qed.

Lemma fileName_for_spec prefix rsp m :
  ∃ fileName m',
    fileName_for env prefix rsp m = (Return fileName, m')
    ∧ file_name_ok env prefix rsp fileName
    ∧ effects [] [] m m'.
Proof.
  unfold fileName_for, file_name_ok.
  destruct rsp as [p|]; simpl.
  - destruct (bool_decide (p ≠ "")) eqn:Hp.
    + apply bool_decide_eq_true in Hp.
      exists (path.basename p), m. split; [reflexivity|].
      split; [left; eauto | apply effects_refl].
    + eexists _, _. split; [reflexivity|].
      split; [right; eauto | destruct m; by apply effects_quiet].
  - eexists _, _. split; [reflexivity|].
    split; [right; eauto | destruct m; by apply effects_quiet].
Qed.

Lemma save_image_spec l filePath data m :
  (filePath ∈ denied (os m)
   ∧ save_image l filePath data m = (Throw (EACCES "open" filePath), m))
  ∨ ((filePath ∉ denied (os m))
     ∧ (∃ m',
         save_image l filePath data m
         = (Return {| textContent := textContent l;
                      savedFiles := savedFiles l ++ [filePath];
                      images := images l |}, m')
         ∧ effects [] [(filePath, data)] m m')).
Proof.
  unfold save_image, fs_writeFile. io.
  destruct (bool_decide (filePath ∈ denied (os m))) eqn:Hd.
  - apply bool_decide_eq_true in Hd. left. done.
  - apply bool_decide_eq_false in Hd. right. split; [done|].
    eexists. split; [reflexivity|].
    split; simpl; done.
Qed.


Lemma append_empty_r (s : string) : s +:+ "" = s.
Proof.
  induction s as [|c s IH]; [done|].
  change (String c (s +:+ "") = String c s). by rewrite IH.
Qed.


Lemma add_text_eq l part :
  add_text l part
  = {| textContent := textContent l +:+ text_of part;
       savedFiles := savedFiles l; images := images l |}.
Proof.
  unfold add_text, text_of. destruct (truthy (part_text part)); [done|].
  simpl. rewrite append_empty_r. by destruct l.
Qed.

Lemma locals_after_none l part :
  image_of part = None →
  add_text l part = locals_after l [part] [].
Proof.
  intros Hi. rewrite add_text_eq. unfold locals_after. simpl.
  rewrite Hi. simpl. by rewrite !app_nil_r.
Qed.

Lemma locals_after_image l part d file :
  image_of part = Some d →
  push_image
    {| textContent := textContent (add_text l part);
       savedFiles := savedFiles (add_text l part) ++ [file];
       images := images (add_text l part) |} d (template (inline_data d))
  = locals_after l [part] [(file, template (inline_data d))].
Proof.
  intros Hi. rewrite add_text_eq. unfold locals_after, push_image. simpl.
  rewrite Hi. reflexivity.
Qed.

Lemma loop_post_skip prefix dir rsp l part m m' :
  image_of part = None →
  effects [] [] m m' →
  loop_post env prefix dir rsp [part] l m (Return (add_text l part), m').
Proof.
  intros Hi He. exists []. split; [done|]. split; [constructor|].
  simpl. split; [by apply locals_after_none|].
  unfold buffers_of. simpl. by rewrite Hi.
Qed.

(** Writing the image of a part, the file name being chosen. *)
Lemma loop_post_save prefix dir rsp l part d fileName m m1 :
  image_of part = Some d →
  file_name_ok env prefix rsp fileName →
  effects [] [] m m1 →
  loop_post env prefix dir rsp [part] l m
    ((l' ← save_image (add_text l part) (path.join [dir; fileName])
              (template (inline_data d));
      mret (push_image l' d (template (inline_data d)))) m1).
Proof.
  intros Hi Hok He1.
  assert (saved_in env prefix rsp dir (path.join [dir; fileName])) as Hs.
  { exists fileName. done. }
  assert (buffers_of [part] = [template (inline_data d)]) as Hb.
  { unfold buffers_of. simpl. by rewrite Hi. }
  change (@mbind IO IO_bind) with IO_bind. unfold IO_bind at 1.
  destruct (save_image_spec (add_text l part) (path.join [dir; fileName])
              (template (inline_data d)) m1) as [[Hd ->]|[Hd (m2 & -> & He2)]].
  - exists []. split; [done|]. split; [constructor|]. simpl.
    rewrite Hb. split; [simpl; lia|]. split; [by eexists|].
    eexists. split; [exact Hs|]. split; [|done].
    by rewrite <- (effects_denied _ _ _ _ He1).
  - exists [(path.join [dir; fileName], template (inline_data d))].
    split; [apply (effects_trans [] [] _ m m1 m2 He1 He2)|].
    split; [by constructor|]. simpl.
    split; [by apply locals_after_image | by rewrite Hb].
Qed.

Lemma image_of_data part d :
  part_inlineData part = Some d →
  image_of part = if truthy (inline_data d) then Some d else None.
Proof. intros H. unfold image_of. rewrite H. reflexivity. Qed.

Lemma generate_part_spec dir rsp l part m :
  loop_post env "generated" dir rsp [part] l m (generate_part env dir rsp l part m).
Proof.
  unfold generate_part.
  destruct (part_inlineData part) as [d|] eqn:Hd.
  - pose proof (image_of_data _ _ Hd) as Hi.
    destruct (truthy (inline_data d)) eqn:Ht.
    + change (@mbind IO IO_bind) with IO_bind. unfold IO_bind at 1.
      destruct (fileName_for_spec "generated" rsp m) as (fileName & m1 & -> & Hok & He).
      by apply loop_post_save.
    + apply loop_post_skip; [done | apply effects_refl].
  - apply loop_post_skip; [|apply effects_refl].
    unfold image_of. by rewrite Hd.
Qed.

Lemma edit_part_spec dir rsp l part m :
  loop_post env "edited" dir rsp [part] l m (edit_part env dir rsp l part m).
Proof.
  unfold edit_part.
  destruct (part_inlineData part) as [d|] eqn:Hd.
  - pose proof (image_of_data _ _ Hd) as Hi.
    change (@mbind IO IO_bind) with IO_bind. unfold IO_bind at 1.
    destruct (fileName_for_spec "edited" rsp m) as (fileName & m1 & -> & Hok & He).
    destruct (truthy (inline_data d)) eqn:Ht.
    + by apply loop_post_save.
    + by apply loop_post_skip.
  - apply loop_post_skip; [|apply effects_refl].
    unfold image_of. by rewrite Hd.
Qed.


Lemma buffers_of_cons part ps :
  buffers_of (part :: ps) = buffers_of [part] ++ buffers_of ps.
Proof.
  unfold buffers_of. simpl. destruct (image_of part); reflexivity.
Qed.

Lemma locals_after_nil l : locals_after l [] [] = l.
Proof. unfold locals_after. simpl. rewrite !app_nil_r. by destruct l. Qed.

Lemma locals_after_cons l part ps ws1 ws2 :
  locals_after (locals_after l [part] ws1) ps ws2
  = locals_after l (part :: ps) (ws1 ++ ws2).
Proof.
  unfold locals_after. simpl. f_equal.
  - by rewrite fmap_app, app_assoc.
  - rewrite <- app_assoc. f_equal.
    destruct (image_of part); reflexivity.
Qed.

(** The loop, from its body: by induction on the parts. *)
Lemma for_of_spec prefix dir rsp (body : locals → Part → IO locals) :
  (∀ l part m, loop_post env prefix dir rsp [part] l m (body l part m)) →
  ∀ ps l m, loop_post env prefix dir rsp ps l m (for_of ps body l m).
Proof.
  intros Hbody ps. induction ps as [|part ps IH]; intros l m.
  - exists []. split; [apply effects_refl|]. split; [constructor|].
    simpl. by rewrite locals_after_nil.
  - simpl. change (@mbind IO IO_bind) with IO_bind. unfold IO_bind.
    destruct (Hbody l part m) as (ws1 & He1 & Hn1 & Hr1).
    destruct (body l part m) as [[l1|e] m1]; simpl in *.
    + destruct Hr1 as [-> Hb1].
      destruct (IH (locals_after l [part] ws1) m1) as (ws2 & He2 & Hn2 & Hr2).
      exists (ws1 ++ ws2).
      split; [by apply (effects_trans [] ws1 ws2 m m1)|].
      split; [by apply Forall_app|].
      destruct (for_of ps body _ m1) as [[l2|e] m2]; simpl in *.
      * destruct Hr2 as [-> Hb2]. rewrite locals_after_cons.
        split; [done|]. by rewrite fmap_app, Hb1, Hb2, <- buffers_of_cons.
      * destruct Hr2 as (Hlen & [rest Hrest] & file & Hs & Hd & ->).
        rewrite buffers_of_cons, !length_app, <- Hb1, length_fmap.
        split; [lia|]. split.
        { exists rest. by rewrite Hrest, fmap_app, app_assoc. }
        exists file. split; [done|]. split; [|done].
        by rewrite <- (effects_denied _ _ _ _ He1).
    + exists ws1. split; [done|]. split; [done|].
      destruct Hr1 as (Hlen & [rest Hrest] & file & Hs & Hd & ->).
      rewrite buffers_of_cons, length_app. split; [lia|]. split; [|eauto].
      exists (rest ++ buffers_of ps). by rewrite Hrest, app_assoc.
Qed.

Lemma generate_loop_spec dir rsp ps l m :
  loop_post env "generated" dir rsp ps l m
    (for_of ps (generate_part env dir rsp) l m).
Proof. apply for_of_spec. apply generate_part_spec. Qed.

Lemma edit_loop_spec dir rsp ps l m :
  loop_post env "edited" dir rsp ps l m
    (for_of ps (edit_part env dir rsp) l m).
Proof. apply for_of_spec. apply edit_part_spec. Qed.

(** From the loop to the end of the handler. *)
Lemma call_post_of_loop prefix failure statusText rsp dir ps pre m m1
    (loop : IO locals) :
  effects pre [] m m1 →
  loop_post env prefix dir rsp ps no_locals m1 (loop m1) →
  call_post env prefix failure statusText rsp dir ps pre m
    (try_catch
       (λ m1, match loop m1 with
              | (Return l, m2) => (Return (result_of (statusText l) l), m2)
              | (Throw e, m2) => (Throw e, m2)
              end)
       (λ error, throw (McpError InternalError (failure +:+ error_message error)))
       m1).
Proof.
  intros He (ws & Hw & Hn & Hr). unfold try_catch, throw.
  destruct (loop m1) as [[l|e] m2]; simpl in *; exists ws;
    (split; [apply (effects_trans pre [] ws m m1 _ He Hw)|]);
    (split; [done|]).
  - destruct Hr as [-> Hb]. done.
  - destruct Hr as (Hlen & Hpre & file & Hs & Hd & ->). split; [done|].
    split; [done|]. exists file. split; [done|]. split; [|done].
    by rewrite <- (effects_denied _ _ _ _ He).
Qed.


(** *** Stepping through a [try] block *)

Lemma try_bind_return {A B} (c : IO A) (k : A → IO B) h m a m1 :
  c m = (Return a, m1) →
  try_catch (x ← c; k x) h m = try_catch (k a) h m1.
Proof.
  intros Hc. unfold try_catch. change (@mbind IO IO_bind) with IO_bind.
  unfold IO_bind. by rewrite Hc.
Qed.

Lemma try_bind_throw {A B} (c : IO A) (k : A → IO B) h m e m1 :
  c m = (Throw e, m1) →
  try_catch (x ← c; k x) h m = h e m1.
Proof.
  intros Hc. unfold try_catch. change (@mbind IO IO_bind) with IO_bind.
  unfold IO_bind. by rewrite Hc.
Qed.

Lemma models_generateContent_eq params client m :
  genAI (this m) = Some client →
  models_generateContent env params m
  = (match generateContent env (calls (os m)) client params with
     | inr response => Return response
     | inl e => Throw e
     end, requested client params m).
Proof.
  intros Hg. unfold models_generateContent. rewrite Hg.
  by destruct (generateContent env _ client params).
Qed.

Lemma fs_mkdir_eq dir m :
  fs_mkdir dir m
  = if bool_decide (dir ∈ denied (os m))
    then (Throw (EACCES "mkdir" dir), m)
    else (Return tt, made dir m).
Proof. reflexivity. Qed.

Lemma effects_requested client params m :
  effects [GenerateContentCall client params] [] m (requested client params m).
Proof. by apply effects_event. Qed.

Lemma effects_made client params dir m :
  effects [GenerateContentCall client params; Mkdir dir] [] m
    (made dir (requested client params m)).
Proof.
  split; simpl; try done.
  - by repeat constructor.
  - by rewrite <- app_assoc.
Qed.

Lemma parts_loop_eq {S} (parts : option (list Part)) (body : S → Part → IO S) s :
  match parts with
  | Some ps => for_of ps body s
  | None => mret s
  end = for_of (default [] parts) body s.
Proof. by destruct parts. Qed.

(** *** [generateImage], configured *)

Lemma generateImage_configured request args m :
  ensureConfigured (this m) = true →
  arguments request = Some args →
  generateImage env request m
  = generateImage_try env (prompt args) (relative_save_path args) m.
Proof.
  intros Hc Ha. unfold generateImage. io. rewrite Hc, Ha. reflexivity.
Qed.

Lemma editImage_configured request args m :
  ensureConfigured (this m) = true →
  arguments request = Some args →
  editImage env request m
  = editImage_try env (imagePath args) (prompt args) (relative_save_path args)
      (referenceImages args) m.
Proof.
  intros Hc Ha. unfold editImage. io. rewrite Hc, Ha. reflexivity.
Qed.

Lemma generateImage_run request args client m :
  ensureConfigured (this m) = true →
  arguments request = Some args →
  genAI (this m) = Some client →
  let params := {| model := image_model; contents := PromptContents (prompt args) |} in
  let rsp := relative_save_path args in
  let dir := imagesDir env (this m) rsp in
  let failure := "Failed to generate image: " in
  let r := generateImage env request m in
  match generateContent env (calls (os m)) client params with
  | inl e =>
      r = (Throw (McpError InternalError (failure +:+ error_message e)),
           requested client params m)
  | inr response =>
      if bool_decide (dir ∈ denied (os m))
      then r = (Throw (McpError InternalError
                         (failure +:+ error_message (EACCES "mkdir" dir))),
                requested client params m)
      else call_post env "generated" failure (generate_statusText (prompt args))
             rsp dir (default [] (response_parts response))
             [GenerateContentCall client params; Mkdir dir] m r
  end.
Proof.
  intros Hc Ha Hg params rsp dir failure r. subst r.
  rewrite (generateImage_configured _ _ _ Hc Ha). unfold generateImage_try.
  pose proof (models_generateContent_eq params client m Hg) as Hreq.
  destruct (generateContent env (calls (os m)) client params) as [e|response].
  - rewrite (try_bind_throw _ _ _ _ _ _ Hreq). reflexivity.
  - rewrite (try_bind_return _ _ _ _ _ _ Hreq).
    rewrite (try_bind_return _ _ _ _ dir (requested client params m))
      by reflexivity.
    pose proof (fs_mkdir_eq dir (requested client params m)) as Hmk.
    simpl denied in Hmk.
    destruct (bool_decide (dir ∈ denied (os m))).
    + rewrite (try_bind_throw _ _ _ _ _ _ Hmk). reflexivity.
    + rewrite (try_bind_return _ _ _ _ _ _ Hmk).
      rewrite parts_loop_eq.
      apply (call_post_of_loop "generated" failure
               (generate_statusText (prompt args)) rsp dir _ _ m
               (made dir (requested client params m))).
      * apply effects_made.
      * apply generate_loop_spec.
Qed.




(** *** [editImage], configured *)

(** The loop over the reference images never throws and collects the
    readable ones, in order. *)
Lemma reference_loop refs imageParts m :
  for_of refs reference_part imageParts m
  = (Return (imageParts ++ omap (reference_read (os m)) refs), m).
Proof.
  revert imageParts. induction refs as [|refPath refs IH]; intros imageParts.
  - simpl. by rewrite app_nil_r.
  - simpl. change (@mbind IO IO_bind) with IO_bind. unfold IO_bind at 1.
    unfold reference_part at 1, try_catch, fs_readFile, reference_read at 1.
    change (@mbind IO IO_bind) with IO_bind. unfold IO_bind at 1.
    destruct (files (os m) !! refPath) as [buffer|]; simpl.
    + rewrite IH. by rewrite <- app_assoc.
    + apply IH.
Qed.

Lemma references_eq referenceImages imageParts m :
  (if has_references referenceImages
   then for_of (default [] referenceImages) reference_part imageParts
   else mret imageParts) m
  = (Return (imageParts ++ omap (reference_read (os m)) (default [] referenceImages)), m).
Proof.
  destruct referenceImages as [[|refPath refs]|]; simpl;
    try (by rewrite app_nil_r).
  apply (reference_loop (refPath :: refs)).
Qed.

Lemma editImage_unreadable request args m :
  ensureConfigured (this m) = true →
  arguments request = Some args →
  outbound "edit_image" args (os m) = None →
  ∃ e, editImage env request m
       = (Throw (McpError InternalError ("Failed to edit image: " +:+ error_message e)), m).
Proof.
  intros Hc Ha Ho. rewrite (editImage_configured _ _ _ Hc Ha).
  unfold editImage_try. unfold outbound in Ho. simpl in Ho.
  destruct (imagePath args) as [image|] eqn:Hi; simpl in Ho.
  - destruct (files (os m) !! image) as [buffer|] eqn:Hf; [done|].
    eexists. erewrite try_bind_throw; [reflexivity|].
    unfold fs_readFile. by rewrite Hf.
  - eexists. erewrite try_bind_throw; reflexivity.
Qed.

Lemma editImage_run request args client params m :
  ensureConfigured (this m) = true →
  arguments request = Some args →
  genAI (this m) = Some client →
  outbound "edit_image" args (os m) = Some params →
  let rsp := relative_save_path args in
  let dir := imagesDir env (this m) rsp in
  let failure := "Failed to edit image: " in
  let r := editImage env request m in
  match generateContent env (calls (os m)) client params with
  | inl e =>
      r = (Throw (McpError InternalError (failure +:+ error_message e)),
           requested client params m)
  | inr response =>
      if bool_decide (dir ∈ denied (os m))
      then r = (Throw (McpError InternalError
                         (failure +:+ error_message (EACCES "mkdir" dir))),
                requested client params m)
      else call_post env "edited" failure
             (edit_statusText (imagePath args) (prompt args) (referenceImages args))
             rsp dir (default [] (response_parts response))
             [GenerateContentCall client params; Mkdir dir] m r
  end.
Proof.
  intros Hc Ha Hg Ho rsp dir failure r. subst r.
  rewrite (editImage_configured _ _ _ Hc Ha). unfold editImage_try.
  unfold outbound in Ho. simpl in Ho.
  destruct (imagePath args) as [image|] eqn:Hi; [|done]. simpl in Ho.
  destruct (files (os m) !! image) as [buffer|] eqn:Hf; [|done].
  injection Ho as <-.
  rewrite (try_bind_return _ _ _ _ buffer m)
    by (unfold fs_readFile; by rewrite Hf).
  rewrite (try_bind_return _ _ _ _ _ _ (references_eq _ _ _)).
  set (params := {| model := image_model; contents := PartsContents _ |}).
  pose proof (models_generateContent_eq params client m Hg) as Hreq.
  change (generateContent env (calls (os m)) client _)
    with (generateContent env (calls (os m)) client params).
  destruct (generateContent env (calls (os m)) client params) as [e|response].
  - rewrite (try_bind_throw _ _ _ _ _ _ Hreq). reflexivity.
  - rewrite (try_bind_return _ _ _ _ _ _ Hreq).
    rewrite (try_bind_return _ _ _ _ dir (requested client params m))
      by reflexivity.
    pose proof (fs_mkdir_eq dir (requested client params m)) as Hmk.
    simpl denied in Hmk.
    destruct (bool_decide (dir ∈ denied (os m))).
    + rewrite (try_bind_throw _ _ _ _ _ _ Hmk). reflexivity.
    + rewrite (try_bind_return _ _ _ _ _ _ Hmk).
      rewrite parts_loop_eq.
      apply (call_post_of_loop "edited" failure
               (edit_statusText (Some image) (prompt args) (referenceImages args))
               rsp dir _ _ m (made dir (requested client params m))).
      * apply effects_made.
      * apply edit_loop_spec.
Qed.


(** *** From the tool to the handler *)

Lemma handler_machine request m :
  (handler env request m).2 = (dispatch env request m).2.
Proof.
  unfold handler, try_catch.
  destruct (dispatch env request m) as [[res|[]] m']; reflexivity.
Qed.

Lemma handler_return request m res m' :
  dispatch env request m = (Return res, m') →
  handler env request m = (Return res, m').
Proof. intros H. unfold handler, try_catch. by rewrite H. Qed.

Lemma handler_mcp request m code message m' :
  dispatch env request m = (Throw (McpError code message), m') →
  handler env request m = (Throw (McpError code message), m').
Proof. intros H. unfold handler, try_catch. by rewrite H. Qed.

Lemma call_post_handler prefix failure statusText rsp dir ps pre request m :
  call_post env prefix failure statusText rsp dir ps pre m (dispatch env request m) →
  call_post env prefix failure statusText rsp dir ps pre m (handler env request m).
Proof.
  unfold handler, try_catch.
  destruct (dispatch env request m) as [[res|e] m']; [done|].
  intros (ws & He & Hn & Hlen & Hpre & file & Hs & Hd & ->).
  exists ws. simpl. eauto 10.
Qed.

(** Both image tools, configured, with their arguments, the request
    being ready to go: what the handler does, by the answer of the
    service and by whether the images directory can be made. *)
Lemma image_tool_run request args client params m :
  name request = "generate_image" ∨ name request = "edit_image" →
  ensureConfigured (this m) = true →
  arguments request = Some args →
  genAI (this m) = Some client →
  outbound (name request) args (os m) = Some params →
  let tool := name request in
  let rsp := relative_save_path args in
  let dir := imagesDir env (this m) rsp in
  let r := handler env request m in
  match generateContent env (calls (os m)) client params with
  | inl e =>
      r = (Throw (McpError InternalError (failure_of tool +:+ error_message e)),
           requested client params m)
  | inr response =>
      if bool_decide (dir ∈ denied (os m))
      then r = (Throw (McpError InternalError
                         (failure_of tool +:+ error_message (EACCES "mkdir" dir))),
                requested client params m)
      else call_post env (name_prefix tool) (failure_of tool) (statusText_of tool args)
             rsp dir (default [] (response_parts response))
             [GenerateContentCall client params; Mkdir dir] m r
  end.
Proof.
  intros Hn Hc Ha Hg Ho tool rsp dir r. subst tool r.
  destruct Hn as [Hn|Hn]; rewrite Hn in *.
  - injection Ho as <-.
    pose proof (generateImage_run request args client m Hc Ha Hg) as Hrun.
    simpl in Hrun. rewrite <- (dispatch_generate _ Hn) in Hrun.
    destruct (generateContent env _ client _) as [e|response].
    + by apply handler_mcp.
    + destruct (bool_decide _).
      * by apply handler_mcp.
      * by apply call_post_handler.
  - pose proof (editImage_run request args client params m Hc Ha Hg Ho) as Hrun.
    simpl in Hrun. rewrite <- (dispatch_edit _ Hn) in Hrun.
    destruct (generateContent env _ client _) as [e|response].
    + by apply handler_mcp.
    + destruct (bool_decide _).
      * by apply handler_mcp.
      * by apply call_post_handler.
Qed.


(** *** What an image tool writes, whatever happens *)

Lemma ensureConfigured_false_or s :
  ensureConfigured s = false
  ∨ (ensureConfigured s = true ∧ ∃ c g, config s = Some c ∧ genAI s = Some g).
Proof.
  destruct (ensureConfigured s) eqn:H; [right|by left].
  split; [done|]. by apply ensureConfigured_true.
Qed.

Lemma image_tool_unconfigured request m :
  name request = "generate_image" ∨ name request = "edit_image" →
  ensureConfigured (this m) = false →
  handler env request m = (Throw (McpError InvalidRequest not_configured_text), m).
Proof.
  intros [Hn|Hn] Hu; apply handler_mcp.
  - rewrite (dispatch_generate _ Hn). by apply generateImage_unconfigured.
  - rewrite (dispatch_edit _ Hn). by apply editImage_unconfigured.
Qed.

Lemma image_tool_no_arguments request m :
  name request = "generate_image" ∨ name request = "edit_image" →
  ensureConfigured (this m) = true →
  arguments request = None →
  ∃ message,
    handler env request m = (Throw (McpError InternalError message), m).
Proof.
  intros [Hn|Hn] Hc Ha; eexists; unfold handler, try_catch.
  - rewrite (dispatch_generate _ Hn). unfold generateImage. io.
    rewrite Hc, Ha. reflexivity.
  - rewrite (dispatch_edit _ Hn). unfold editImage. io.
    rewrite Hc, Ha. reflexivity.
Qed.

Lemma outbound_generate args w :
  outbound "generate_image" args w
  = Some {| model := image_model; contents := PromptContents (prompt args) |}.
Proof. reflexivity. Qed.

Lemma image_tool_effects request args m :
  name request = "generate_image" ∨ name request = "edit_image" →
  arguments request = Some args →
  ∃ pre ws,
    effects pre ws m (handler env request m).2
    ∧ Forall (λ w, saved_in env (name_prefix (name request)) (relative_save_path args)
                     (imagesDir env (this m) (relative_save_path args)) w.1) ws.
Proof.
  intros Hn Ha.
  destruct (ensureConfigured_false_or (this m)) as [Hu|(Hc & c & client & _ & Hg)].
  { rewrite (image_tool_unconfigured _ _ Hn Hu).
    exists [], []. split; [apply effects_refl | constructor]. }
  destruct (outbound (name request) args (os m)) as [params|] eqn:Ho.
  - pose proof (image_tool_run request args client params m Hn Hc Ha Hg Ho) as Hrun.
    simpl in Hrun.
    destruct (generateContent env _ client params) as [e|response].
    + rewrite Hrun. exists [GenerateContentCall client params], [].
      split; [apply effects_requested | constructor].
    + destruct (bool_decide _).
      * rewrite Hrun. exists [GenerateContentCall client params], [].
        split; [apply effects_requested | constructor].
      * destruct Hrun as (ws & He & Hs & _). eauto.
  - destruct Hn as [Hn|Hn]; rewrite Hn in Ho; [done|].
    rewrite handler_machine, (dispatch_edit _ Hn).
    destruct (editImage_unreadable request args m Hc Ha Ho) as [e ->].
    exists [], []. split; [apply effects_refl | constructor].
Qed.

(** *** The generated file names *)

Lemma chars_of_chars cs : chars (of_chars cs) = cs.
Proof. apply list_ascii_of_string_of_list_ascii. Qed.





Lemma write_all_last fs ws w :
  last ws = Some w → write_all fs ws !! w.1 = Some w.2.
Proof.
  destruct ws as [|w' ws _] using rev_ind; [done|].
  rewrite last_snoc. intros [= ->].
  rewrite write_all_app. simpl. apply lookup_insert_eq.
Qed.



(** *** The request of [edit_image] *)

(** C6.  When [edit_image] is called on a configured server with a
    primary image that can be read, the server hands exactly one
    request to the client, and its parts are: the primary image
    (contents and mime type), then one part for each reference image
    that can be read ([reference_read] gives its contents and mime
    type), in the order of [referenceImages], then the prompt.  A
    reference image that cannot be read contributes no part and does
    not keep the request from being sent. *)
Theorem edit_request_parts request args c client image buffer m :
  name request = "edit_image" →
  arguments request = Some args →
  config (this m) = Some c →
  genAI (this m) = Some client →
  imagePath args = Some image →
  files (os m) !! image = Some buffer →
  ∃ rest,
    trace (os (handler env request m).2)
    = trace (os m)
      ++ GenerateContentCall client
           {| model := image_model;
              contents :=
                PartsContents
                  (InlinePart buffer (getMimeType image)
                   :: omap (reference_read (os m)) (default [] (referenceImages args))
                   ++ [TextPart (prompt args)]) |}
         :: rest
    ∧ Forall (λ e, is_request e = false) rest.
Proof.
  intros Hn Ha Hc Hg Hi Hf.
  assert (ensureConfigured (this m) = true) as Hconf.
  { apply ensureConfigured_true. eauto. }
  set (params := {| model := image_model; contents := PartsContents _ |}).
  assert (outbound (name request) args (os m) = Some params) as Ho.
  { rewrite Hn. unfold outbound. simpl. rewrite Hi. simpl. by rewrite Hf. }
  pose proof (image_tool_run request args client params m (or_intror Hn)
                Hconf Ha Hg Ho) as Hrun.
  simpl in Hrun.
  destruct (generateContent env _ client params) as [e|response].
  - rewrite Hrun. by exists [].
  - destruct (bool_decide _).
    + rewrite Hrun. by exists [].
    + destruct Hrun as (ws & He & _).
      exists (Mkdir (imagesDir env (this m) (relative_save_path args))
              :: (write_event <$> ws)).
      split; [by rewrite (effects_trace _ _ _ _ He)|].
      constructor; [done|]. apply Forall_fmap, Forall_true. done.
Qed.

(** *** The result of an image tool *)









(** *** The tools that write nothing *)

Lemma configure_quiet request m :
  os (configureGeminiToken request m).2 = os m
  ∧ lastImagePath (this (configureGeminiToken request m).2) = lastImagePath (this m).
Proof.
  unfold configureGeminiToken. io.
  destruct (arguments request) as [args|]; [|done]. simpl.
  destruct (ConfigSchema_parse _ _) as [[]|]; done.
Qed.

Lemma getConfigurationStatus_quiet m : (getConfigurationStatus env m).2 = m.
Proof. reflexivity. Qed.

Lemma getLastImageInfo_quiet m : (getLastImageInfo env m).2 = m.
Proof.
  unfold getLastImageInfo. io. destruct (negb _); [done|].
  unfold fs_access. by destruct (files (os m) !! _).
Qed.

(** A tool other than the two image tools leaves the world and the last
    image path alone. *)
Lemma other_tool_quiet request m :
  name request ≠ "generate_image" →
  name request ≠ "edit_image" →
  os (handler env request m).2 = os m
  ∧ lastImagePath (this (handler env request m).2) = lastImagePath (this m).
Proof.
  intros Hg He. rewrite handler_machine. unfold dispatch.
  rewrite (bool_decide_eq_false_2 _ Hg), (bool_decide_eq_false_2 _ He).
  repeat case_bool_decide.
  - apply configure_quiet.
  - by rewrite getConfigurationStatus_quiet.
  - by rewrite getLastImageInfo_quiet.
  - done.
Qed.

(** What any call does to the files and to the last image path. *)
Lemma handler_writes request m :
  ∃ pre ws,
    Forall (λ e, is_write e = false) pre
    ∧ trace (os (handler env request m).2) = trace (os m) ++ pre ++ (write_event <$> ws)
    ∧ files (os (handler env request m).2) = write_all (files (os m)) ws
    ∧ lastImagePath (this (handler env request m).2)
      = match last ws with
        | Some w => Some w.1
        | None => lastImagePath (this m)
        end
    ∧ (name request ≠ "generate_image" → name request ≠ "edit_image" →
       pre = [] ∧ ws = [])
    ∧ Forall (λ w, ∃ args fileName,
                arguments request = Some args
                ∧ w.1 = path.join [imagesDir env (this m) (relative_save_path args);
                                   fileName]) ws.
Proof.
  destruct (decide (name request = "generate_image")) as [Hg|Hg];
    [|destruct (decide (name request = "edit_image")) as [He|He]].
  3: { destruct (other_tool_quiet request m Hg He) as [Ho Hl].
       exists [], []. rewrite Ho, Hl. simpl. by rewrite app_nil_r. }
  all: assert (name request = "generate_image" ∨ name request = "edit_image")
         as Hn by auto.
  all: destruct (arguments request) as [args|] eqn:Ha.
  1,3: destruct (image_tool_effects request args m Hn Ha) as (pre & ws & [] & Hs);
       exists pre, ws; repeat split; try done; try (by intros);
       (eapply Forall_impl; [exact Hs|]);
       intros w (fileName & _ & ->); by exists args, fileName.
  all: exists [], []; simpl;
       destruct (ensureConfigured_false_or (this m)) as [Hu|(Hc & _)];
       [ rewrite (image_tool_unconfigured _ _ Hn Hu)
       | destruct (image_tool_no_arguments _ _ Hn Hc Ha) as [msg ->] ];
       simpl; rewrite app_nil_r; repeat split; try done; by intros.
Qed.

Lemma serve_keeps_lastImagePath requests m :
  lastImagePath (this m) ≠ None →
  lastImagePath (this (serve env requests m)) ≠ None.
Proof.
  revert m. induction requests as [|request requests IH]; intros m Hm; [done|].
  simpl. apply IH.
  destruct (handler_writes request m) as (pre & ws & _ & _ & _ & Hl & _ & _).
  rewrite Hl. by destruct (last ws).
Qed.

(** C10, as the code has it.  Whatever the call and whether it returns
    or throws, the last image path afterwards is the path of the last
    file the call wrote, a file that is there with what was written,
    and it is the path from before when the call wrote no file; only
    [generate_image] and [edit_image] write files, so every other tool
    (known or not) leaves it as it was, as does an image call that
    fails before its first write.  Hence a path once recorded is never
    reset to absent, over any sequence of calls. *)
Theorem lastImagePath_only_moves_to_written request m :
  let m' := (handler env request m).2 in
  (∃ pre ws,
     Forall (λ e, is_write e = false) pre
     ∧ trace (os m') = trace (os m) ++ pre ++ (write_event <$> ws)
     ∧ lastImagePath (this m')
       = match last ws with
         | Some w => Some w.1
         | None => lastImagePath (this m)
         end
     ∧ (∀ w, last ws = Some w → files (os m') !! w.1 = Some w.2)
     ∧ (name request ≠ "generate_image" → name request ≠ "edit_image" → ws = []))
  ∧ (∀ requests,
       lastImagePath (this m) ≠ None →
       lastImagePath (this (serve env requests m)) ≠ None).
Proof.
  intros m'. split; [|intros requests; apply serve_keeps_lastImagePath].
  destruct (handler_writes request m) as (pre & ws & Hp & Ht & Hf & Hl & Hq & _).
  exists pre, ws. repeat split; try done.
  - intros w Hw. unfold m'. rewrite Hf. by apply write_all_last.
  - intros Hg He. by destruct (Hq Hg He).
Qed.


(** *** Missing arguments *)

(** The image tools throw no [InvalidParams]: they return, or throw
    [InvalidRequest] (not configured) or [InternalError]. *)
Lemma image_tool_outcome request m :
  name request = "generate_image" ∨ name request = "edit_image" →
  match (handler env request m).1 with
  | Return _ => True
  | Throw (McpError InvalidRequest _) => True
  | Throw (McpError InternalError _) => True
  | Throw _ => False
  end.
Proof.
  intros Hn.
  destruct (ensureConfigured_false_or (this m)) as [Hu|(Hc & c & client & _ & Hg)].
  { by rewrite (image_tool_unconfigured _ _ Hn Hu). }
  destruct (arguments request) as [args|] eqn:Ha.
  2: { by destruct (image_tool_no_arguments _ _ Hn Hc Ha) as [msg ->]. }
  destruct (outbound (name request) args (os m)) as [params|] eqn:Ho.
  2: { destruct Hn as [Hn|Hn]; rewrite Hn in Ho; [done|].
       destruct (editImage_unreadable request args m Hc Ha Ho) as [e He].
       rewrite <- (dispatch_edit _ Hn) in He.
       by rewrite (handler_mcp _ _ _ _ _ He). }
  pose proof (image_tool_run request args client params m Hn Hc Ha Hg Ho) as Hrun.
  simpl in Hrun.
  destruct (generateContent env _ client params) as [e|response].
  { by rewrite Hrun. }
  destruct (bool_decide _).
  { by rewrite Hrun. }
  destruct Hrun as (ws & _ & _ & Hr).
  destruct (handler env request m).1 as [res|e]; [done|].
  by destruct Hr as (_ & _ & file & _ & _ & ->).
Qed.

(** C2, as the code has it.  [configure_gemini_token] called with
    arguments that lack [apiKey] throws [InvalidParams] with the
    message of the schema (which does not name the tool) and leaves the
    machine as it was.  [generate_image] and [edit_image] do not check
    their arguments: they never throw [InvalidParams]; on a server that
    is not configured they throw [InvalidRequest] whatever the
    arguments; on a configured server [generate_image] hands a request
    with the missing prompt to the client, and [edit_image] without
    [imagePath] fails on reading the image, with [InternalError], before
    any request or write. *)
Theorem missing_argument request m :
  (∀ args,
     name request = "configure_gemini_token" →
     arguments request = Some args →
     apiKey args = None →
     handler env request m
     = (Throw (McpError InvalidParams "Invalid API key: Required"), m))
  ∧ (name request = "generate_image" ∨ name request = "edit_image" →
     ∀ message, (handler env request m).1 ≠ Throw (McpError InvalidParams message))
  ∧ (name request = "generate_image" ∨ name request = "edit_image" →
     ensureConfigured (this m) = false →
     handler env request m
     = (Throw (McpError InvalidRequest not_configured_text), m))
  ∧ (∀ args c client,
       name request = "generate_image" →
       arguments request = Some args →
       config (this m) = Some c →
       genAI (this m) = Some client →
       prompt args = None →
       ∃ rest,
         trace (os (handler env request m).2)
         = trace (os m)
           ++ GenerateContentCall client
                {| model := image_model; contents := PromptContents None |}
              :: rest)
  ∧ (∀ args c client,
       name request = "edit_image" →
       arguments request = Some args →
       config (this m) = Some c →
       genAI (this m) = Some client →
       imagePath args = None →
       ∃ message,
         handler env request m = (Throw (McpError InternalError message), m)).
Proof.
  split; [|split; [|split; [|split]]].
  - intros args Hn Ha Hk. apply handler_mcp.
    rewrite (dispatch_configure _ Hn).
    rewrite (configure_rejected _ args _ ["Required"] Ha); [done|].
    by rewrite Hk.
  - intros Hn message Hr.
    pose proof (image_tool_outcome request m Hn) as Ho.
    by rewrite Hr in Ho.
  - apply image_tool_unconfigured.
  - intros args c client Hn Ha Hc Hg Hp.
    assert (ensureConfigured (this m) = true) as Hconf.
    { apply ensureConfigured_true. eauto. }
    pose proof (image_tool_run request args client _ m (or_introl Hn) Hconf Ha Hg
                  ltac:(rewrite Hn; apply outbound_generate)) as Hrun.
    simpl in Hrun. rewrite Hp in Hrun.
    destruct (generateContent env _ client _) as [e|response].
    + rewrite Hrun. by exists [].
    + destruct (bool_decide _).
      * rewrite Hrun. by exists [].
      * destruct Hrun as (ws & He & _). eexists.
        by rewrite (effects_trace _ _ _ _ He).
  - intros args c client Hn Ha Hc Hg Hi.
    assert (ensureConfigured (this m) = true) as Hconf.
    { apply ensureConfigured_true. eauto. }
    assert (outbound "edit_image" args (os m) = None) as Ho.
    { unfold outbound. simpl. by rewrite Hi. }
    destruct (editImage_unreadable request args m Hconf Ha Ho) as [e He].
    rewrite <- (dispatch_edit _ Hn) in He. eexists.
    by apply handler_mcp.
Qed.

End Properties.

(** ** Facts about [path] *)

Section PathFacts.

Import path.

Implicit Types (cs seg : list ascii) (segs res : list (list ascii)).

Example basename_ex : path.basename "out/pic.png" = "pic.png".
Proof. reflexivity. Qed.
Example dirname_ex : path.dirname "out/pic.png" = "out".
Proof. reflexivity. Qed.
Example dirname_ex2 : path.dirname "a//b" = "a/".
Proof. reflexivity. Qed.
Example dirname_ex3 : path.dirname "pic.png" = ".".
Proof. reflexivity. Qed.
Example extname_ex : path.extname "/a/b.tar.GZ" = ".GZ".
Proof. reflexivity. Qed.
Example extname_ex2 : path.extname "/a/.bashrc" = "".
Proof. reflexivity. Qed.
Example join_ex : path.join ["/work/"; "out"] = "/work/out".
Proof. vm_compute. reflexivity. Qed.
Example join_ex2 : path.join ["/work"; "."] = "/work".
Proof. vm_compute. reflexivity. Qed.
Example join_ex3 : path.join ["a/b"; "../../../c"] = "../c".
Proof. vm_compute. reflexivity. Qed.
Example join_ex4 : path.join ["/a/b"; "../../../c/"] = "/c/".
Proof. vm_compute. reflexivity. Qed.

Lemma chars_append (a b : string) : chars (a +:+ b) = chars a ++ chars b.
Proof.
  induction a as [|c a IH]; [done|].
  change (c :: chars (a +:+ b) = c :: chars a ++ chars b). by rewrite IH.
Qed.

Lemma chars_slash (a b : string) :
  chars (a +:+ "/" +:+ b) = chars a ++ "/"%char :: chars b.
Proof. by rewrite !chars_append. Qed.



Lemma chars_nil (s : string) : chars s = [] → s = "".
Proof. by destruct s. Qed.

Lemma split_nonempty cs : split cs ≠ [].
Proof.
  destruct cs as [|c cs]; [done|]. simpl.
  destruct (is_sep c); [done|]. by destruct (split cs).
Qed.

Lemma split_sep cs1 cs2 :
  split (cs1 ++ "/"%char :: cs2) = split cs1 ++ split cs2.
Proof.
  induction cs1 as [|c cs1 IH]; [done|]. simpl.
  destruct (is_sep c); [by rewrite IH|].
  rewrite IH. pose proof (split_nonempty cs1).
  by destruct (split cs1).
Qed.

Lemma split_plain seg : Forall (λ c, is_sep c = false) seg → split seg = [seg].
Proof.
  induction 1 as [|c seg Hc _ IH]; [done|]. simpl. by rewrite Hc, IH.
Qed.

Lemma split_unsplit segs :
  segs ≠ [] →
  Forall (Forall (λ c, is_sep c = false)) segs →
  split (unsplit segs) = segs.
Proof.
  intros Hne Hall. induction Hall as [|seg segs Hseg Hall IH]; [done|].
  destruct segs as [|seg' segs].
  - simpl. by apply split_plain.
  - change (unsplit (seg :: seg' :: segs))
      with (seg ++ "/"%char :: unsplit (seg' :: segs)).
    rewrite split_sep, IH by done. by rewrite split_plain.
Qed.

Lemma resolve_app allow res segs1 segs2 :
  resolve allow res (segs1 ++ segs2)
  = resolve allow (rev (resolve allow res segs1)) segs2.
Proof.
  revert res. induction segs1 as [|seg segs1 IH]; intros res.
  - simpl. by rewrite rev_involutive.
  - simpl. repeat case_bool_decide; try apply IH.
    destruct res as [|top res]; [apply IH|].
    case_bool_decide; apply IH.
Qed.

Lemma resolve_plain allow res seg segs :
  plain seg → resolve allow res (seg :: segs) = resolve allow (seg :: res) segs.
Proof.
  intros (H1 & H2 & H3 & _). simpl.
  rewrite bool_decide_eq_false_2 by (intros [?|?]; done).
  by rewrite bool_decide_eq_false_2.
Qed.

Lemma stack_ok_resolve allow segs res :
  stack_ok allow res →
  Forall (Forall (λ c, is_sep c = false)) segs →
  stack_ok allow (rev (resolve allow res segs)).
Proof.
  intros Hok Hall. revert res Hok.
  induction Hall as [|seg segs Hseg Hall IH]; intros res Hok.
  - simpl. by rewrite rev_involutive.
  - simpl. case_bool_decide as Hskip; [by apply IH|].
    case_bool_decide as Hdd.
    + destruct res as [|top res].
      * apply IH. destruct allow; simpl; [|done]. left. done.
      * case_bool_decide as Htop.
        -- apply IH. destruct allow; [|done]. simpl. left.
           split; [done|]. split; [done|]. subst top.
           destruct Hok as [(_ & _ & Hd)|[(_ & _ & Hp & _) _]]; [|done].
           by constructor.
        -- apply IH. destruct Hok as [(Ht & _)|[_ Hok]]; done.
    + apply IH. simpl. right. split; [|done].
      split; [naive_solver|]. split; [naive_solver|]. done.
Qed.

(** [resolve] leaves an orderly list of segments as it is. *)
Lemma resolve_stack_ok allow segs res :
  stack_ok allow (rev segs ++ res) →
  resolve allow res segs = rev res ++ segs.
Proof.
  revert res. induction segs as [|seg segs IH]; intros res Hok.
  - simpl. by rewrite app_nil_r.
  - simpl in Hok. rewrite <- app_assoc in Hok. simpl in Hok.
    assert (stack_ok allow (seg :: res)) as Hseg.
    { clear IH. induction (rev segs) as [|s l IHl]; [done|].
      simpl in Hok. destruct Hok as [(_ & Ha & Hd)|[_ Hok]]; [|by apply IHl].
      apply Forall_app in Hd as [_ Hd]. apply Forall_cons in Hd as [-> Hd].
      simpl. left. done. }
    specialize (IH (seg :: res) Hok). simpl in IH.
    rewrite <- app_assoc in IH. simpl in IH. rewrite <- IH.
    destruct Hseg as [(-> & -> & Hd)|[Hp _]].
    + simpl. destruct res as [|top res]; [done|].
      apply Forall_cons in Hd as [-> _].
      by rewrite bool_decide_eq_true_2.
    + by apply resolve_plain.
Qed.


Lemma stack_ok_segments allow res :
  stack_ok allow res →
  Forall (λ seg, seg ≠ [] ∧ Forall (λ c, is_sep c = false) seg) res.
Proof.
  assert (∀ seg, seg = dotdot → seg ≠ [] ∧ Forall (λ c, is_sep c = false) seg)
    as Hdd.
  { intros seg ->. split; [done|]. by repeat constructor. }
  induction res as [|top res IH]; [done|]. simpl.
  intros [(Ht & _ & Hd)|[(Hp & _ & _ & Hs) Hok]].
  - constructor; [by apply Hdd|]. eapply Forall_impl; [exact Hd|]. apply Hdd.
  - constructor; [done|]. by apply IH.
Qed.

Lemma split_segments cs : Forall (Forall (λ c, is_sep c = false)) (split cs).
Proof.
  induction cs as [|c cs IH]; [by repeat constructor|]. simpl.
  destruct (is_sep c) eqn:Hc; [by constructor|].
  destruct (split cs) as [|seg segs]; [by repeat constructor|].
  apply Forall_cons in IH as [Hseg Hsegs]. by repeat constructor.
Qed.

Lemma unsplit_snoc_nonempty segs seg : seg ≠ [] → unsplit (segs ++ [seg]) ≠ [].
Proof.
  intros Hne. induction segs as [|s segs IH]; [done|].
  simpl. destruct (segs ++ [seg]) eqn:E; [by destruct segs|].
  by destruct s.
Qed.

Lemma starts_with_sep_app cs1 cs2 :
  cs1 ≠ [] → starts_with_sep (cs1 ++ cs2) = starts_with_sep cs1.
Proof. by destruct cs1. Qed.

Lemma starts_with_sep_plain seg : plain seg → starts_with_sep seg = false.
Proof.
  intros (Hne & _ & _ & Hs). destruct seg; [done|].
  by apply Forall_cons in Hs as [? _].
Qed.

Lemma ends_with_sep_plain cs seg :
  plain seg → ends_with_sep (cs ++ seg) = false.
Proof.
  intros (Hne & _ & _ & Hs). unfold ends_with_sep. rewrite rev_app_distr.
  destruct seg as [|c seg _] using rev_ind; [done|].
  rewrite rev_app_distr. simpl.
  apply Forall_app in Hs as [_ Hs]. by apply Forall_cons in Hs as [Hc _].
Qed.

Lemma normalize_chars_nonempty cs :
  cs ≠ [] →
  normalize_chars cs
  = match unsplit (resolve (negb (starts_with_sep cs)) [] (split cs)) with
    | [] =>
        if starts_with_sep cs then ["/"%char]
        else if ends_with_sep cs then ["."%char; "/"%char] else ["."%char]
    | _ =>
        (if starts_with_sep cs then ["/"%char] else [])
        ++ unsplit (resolve (negb (starts_with_sep cs)) [] (split cs))
        ++ (if ends_with_sep cs then ["/"%char] else [])
    end.
Proof. intros Hne. destruct cs; [done|reflexivity]. Qed.

(** Normalizing a path to which a plain name was joined. *)
Lemma normalize_chars_snoc cs seg :
  cs ≠ [] →
  plain seg →
  normalize_chars (cs ++ "/"%char :: seg)
  = render (starts_with_sep cs)
      (resolve (negb (starts_with_sep cs)) [] (split cs) ++ [seg]).
Proof.
  intros Hne Hp.
  assert (ends_with_sep (cs ++ "/"%char :: seg) = false) as Hend.
  { change (cs ++ "/"%char :: seg) with (cs ++ ["/"%char] ++ seg).
    rewrite app_assoc. by apply ends_with_sep_plain. }
  rewrite normalize_chars_nonempty by (by destruct cs).
  rewrite starts_with_sep_app, Hend by done.
  rewrite split_sep, (split_plain seg) by apply Hp.
  rewrite resolve_app, resolve_plain by done. simpl resolve.
  rewrite rev_involutive.
  pose proof (unsplit_snoc_nonempty
                (resolve (negb (starts_with_sep cs)) [] (split cs)) seg
                (proj1 Hp)) as Hbody.
  destruct (unsplit _) eqn:Eb; [done|]. unfold render.
  by rewrite Eb, app_nil_r.
Qed.

(** A rendered path splits and resolves back to its segments. *)
Lemma render_resolve isAbs segs :
  segs ≠ [] →
  stack_ok (negb isAbs) (rev segs) →
  render isAbs segs ≠ []
  ∧ starts_with_sep (render isAbs segs) = isAbs
  ∧ resolve (negb isAbs) [] (split (render isAbs segs)) = segs.
Proof.
  intros Hne Hok.
  pose proof (stack_ok_segments _ _ Hok) as Hsegs.
  apply Forall_rev in Hsegs. rewrite rev_involutive in Hsegs.
  assert (Forall (Forall (λ c, is_sep c = false)) segs) as Hns.
  { eapply Forall_impl; [exact Hsegs|]. by intros seg [_ ?]. }
  assert (resolve (negb isAbs) [] segs = segs) as Hid.
  { apply (resolve_stack_ok _ segs []). by rewrite app_nil_r. }
  unfold render. destruct isAbs; simpl.
  - split; [done|]. split; [done|].
    rewrite split_unsplit by done. by destruct segs.
  - rewrite split_unsplit by done. split; [|split; [|done]].
    + destruct segs as [|seg segs]; [done|].
      apply Forall_cons in Hsegs as [[Hseg _] _].
      destruct seg; [done|]. by destruct segs.
    + destruct segs as [|seg segs]; [done|].
      apply Forall_cons in Hsegs as [[Hseg Hc] _].
      destruct seg as [|c seg]; [done|].
      apply Forall_cons in Hc as [Hc _]. by destruct segs.
Qed.

Lemma join_two (a b : string) :
  a ≠ "" → b ≠ "" →
  join [a; b] = of_chars (normalize_chars (chars a ++ "/"%char :: chars b)).
Proof.
  intros Ha Hb. unfold join.
  rewrite filter_cons_True, filter_cons_True, filter_nil by done.
  unfold normalize. simpl join_with. by rewrite !chars_append.
Qed.

Lemma join_empty_l (b : string) : b ≠ "" → join [""; b] = normalize b.
Proof.
  intros Hb. unfold join.
  rewrite filter_cons_False by (intros H; by apply H).
  rewrite filter_cons_True, filter_nil by done.
  reflexivity.
Qed.

Lemma plain_nonempty (s : string) : plain (chars s) → s ≠ "".
Proof. intros (Hne & _) ->. done. Qed.

(** Joining a directory name and then a file name is joining the
    relative path made of the two. *)
Lemma join_nested (w d f : string) :
  plain (chars d) → plain (chars f) →
  join [join [w; d]; f] = join [w; d +:+ "/" +:+ f].
Proof.
  intros Hd Hf.
  pose proof (plain_nonempty _ Hd) as Hdne.
  pose proof (plain_nonempty _ Hf) as Hfne.
  assert (d +:+ "/" +:+ f ≠ "") as Hdf by (by destruct d).
  assert (∀ isAbs cs segs,
            segs ≠ [] → stack_ok (negb isAbs) (rev segs) →
            cs = render isAbs segs →
            join [of_chars cs; f]
            = of_chars (render isAbs (segs ++ [chars f]))) as Hstep.
  { intros isAbs cs segs Hne Hok ->.
    destruct (render_resolve isAbs segs Hne Hok) as (Hr & Hs & Hres).
    rewrite join_two, chars_of_chars; [|by intros ?%(f_equal chars); rewrite
      chars_of_chars in *|done].
    by rewrite normalize_chars_snoc, Hs, Hres. }
  destruct (decide (w = "")) as [->|Hw].
  - rewrite !join_empty_l by done. unfold normalize at 1.
    assert (normalize_chars (chars d) = render false [chars d]) as ->.
    { rewrite normalize_chars_nonempty by apply Hd.
      rewrite (starts_with_sep_plain _ Hd).
      rewrite (ends_with_sep_plain [] (chars d) Hd : ends_with_sep (chars d) = false).
      rewrite split_plain by apply Hd. simpl negb.
      rewrite (resolve_plain true [] (chars d) []) by done.
      unfold render. simpl. destruct (chars d); [by destruct Hd|].
      by rewrite app_nil_r. }
    rewrite (Hstep false _ [chars d]); [|done|simpl; by right|done].
    unfold normalize. rewrite chars_slash. f_equal.
    rewrite (normalize_chars_snoc (chars d) (chars f)) by (done || apply Hd).
    rewrite (starts_with_sep_plain _ Hd).
    rewrite split_plain by apply Hd. simpl negb.
    by rewrite (resolve_plain true [] (chars d) []).
  - assert (chars w ≠ []) as Hcw by (intros ?%chars_nil; done).
    rewrite (join_two w d), (join_two w (d +:+ "/" +:+ f)) by done.
    rewrite normalize_chars_snoc by done.
    set (isAbs := starts_with_sep (chars w)).
    set (R := resolve (negb isAbs) [] (split (chars w))).
    rewrite (Hstep isAbs _ (R ++ [chars d])); [| |simpl|done].
    + f_equal. rewrite chars_slash.
      replace (chars w ++ "/"%char :: chars d ++ "/"%char :: chars f)
        with ((chars w ++ "/"%char :: chars d) ++ "/"%char :: chars f)
        by (by rewrite <- app_assoc).
      rewrite normalize_chars_snoc; [|by destruct (chars w)|done].
      rewrite starts_with_sep_app by done. fold isAbs.
      rewrite split_sep, (split_plain (chars d)) by apply Hd.
      rewrite resolve_app. fold R.
      rewrite resolve_plain by done. simpl resolve.
      by rewrite rev_involutive.
    + by destruct R.
    + rewrite rev_app_distr. simpl. right. split; [done|].
      apply stack_ok_resolve; [done | apply split_segments].
Qed.


Lemma normalize_chars_nonnil cs : normalize_chars cs ≠ [].
Proof.
  destruct (decide (cs = [])) as [->|Hne]; [done|].
  rewrite normalize_chars_nonempty by done.
  destruct (unsplit _) eqn:E.
  - destruct (starts_with_sep cs); [done|]. by destruct (ends_with_sep cs).
  - by destruct (starts_with_sep cs).
Qed.

Lemma of_chars_nonempty cs : cs ≠ [] → of_chars cs ≠ "".
Proof. by destruct cs. Qed.

Lemma join_nonempty args : join args ≠ "".
Proof.
  unfold join. destruct (filter _ args); [done|].
  apply of_chars_nonempty, normalize_chars_nonnil.
Qed.

Lemma isAbsolute_normalize (p : string) :
  isAbsolute p = true → isAbsolute (normalize p) = true.
Proof.
  unfold isAbsolute, normalize. intros Hp. rewrite chars_of_chars.
  rewrite normalize_chars_nonempty by (by destruct (chars p)).
  rewrite Hp. by destruct (unsplit _).
Qed.

(** A path joined onto an absolute one is absolute. *)
Lemma isAbsolute_join (a : string) (rest : list string) :
  isAbsolute a = true → isAbsolute (join (a :: rest)) = true.
Proof.
  intros Ha. unfold join.
  assert (a ≠ "") as Hne by (by intros ->).
  rewrite filter_cons_True by done.
  apply isAbsolute_normalize. unfold isAbsolute in *.
  destruct (filter _ rest) as [|b l]; [done|].
  change (join_with "/" (a :: b :: l)) with (a +:+ "/" +:+ join_with "/" (b :: l)).
  rewrite chars_append, starts_with_sep_app; [done|].
  by intros ?%chars_nil.
Qed.

Lemma plain_out : plain (chars "out").
Proof. repeat split; try done. by repeat constructor. Qed.

Lemma plain_pic_png : plain (chars "pic.png").
Proof. repeat split; try done. by repeat constructor. Qed.

End PathFacts.

(** ** The last image path *)

Section LastImage.

Context (env : Env).

Lemma imagesDir_absolute s rsp :
  path.isAbsolute (workplaceDir env s) = true →
  path.isAbsolute (imagesDir env s rsp) = true.
Proof.
  intros Hw. unfold imagesDir. destruct rsp as [p|]; [|done].
  destruct (truthy (Some p)); [|done]. by apply isAbsolute_join.
Qed.

Lemma imagesDir_out_pic s :
  imagesDir env s (Some "out/pic.png") = path.join [workplaceDir env s; "out"].
Proof. reflexivity. Qed.

Lemma getLastImageInfo_found file buffer m :
  lastImagePath (this m) = Some file →
  file ≠ "" →
  files (os m) !! file = Some buffer →
  getLastImageInfo env m
  = (Return {| content :=
                 [TextItem (last_image_found_text file (stat env file).1
                              (stat env file).2)] |}, m).
Proof.
  intros Hl Hne Hf. unfold getLastImageInfo.
  change (@mbind IO IO_bind) with IO_bind. unfold IO_bind at 1, read_this.
  rewrite Hl. simpl. rewrite bool_decide_eq_true_2 by done. simpl.
  unfold try_catch, IO_bind, fs_access. by rewrite Hf.
Qed.

(** C8, as the code has it.  Whatever the call, the last image path
    afterwards is the path given to the last [fs.writeFile] of the call
    (the path from before if the call wrote nothing), and that file
    holds what was written last.  The path is the join of the images
    directory and the file name: it is absolute whenever the workplace
    directory is.  In particular, when a configured
    server is called with [relative_save_path] ["out/pic.png"], the
    service answers with exactly one image part, and the file system
    lets the directory and the file be written, the call returns, the
    file is at [workplace/out/pic.png] with the data of that part, and
    the next [get_last_image_info] reports that path. *)
Theorem last_image_path_is_last_written request m :
  let r := handler env request m in
  (∃ pre ws,
     Forall (λ e, is_write e = false) pre
     ∧ trace (os r.2) = trace (os m) ++ pre ++ (write_event <$> ws)
     ∧ lastImagePath (this r.2)
       = match last ws with
         | Some w => Some w.1
         | None => lastImagePath (this m)
         end
     ∧ (∀ w, last ws = Some w → files (os r.2) !! w.1 = Some w.2)
     ∧ Forall (λ w, ∃ args fileName,
                 arguments request = Some args
                 ∧ w.1 = path.join [imagesDir env (this m) (relative_save_path args);
                                    fileName]) ws
     ∧ (path.isAbsolute (workplaceDir env (this m)) = true →
        Forall (λ w, path.isAbsolute w.1 = true) ws))
  ∧ (∀ args client params response d,
       name request = "generate_image" ∨ name request = "edit_image" →
       ensureConfigured (this m) = true →
       arguments request = Some args →
       genAI (this m) = Some client →
       outbound (name request) args (os m) = Some params →
       generateContent env (calls (os m)) client params = inr response →
       relative_save_path args = Some "out/pic.png" →
       image_parts response = [d] →
       let target := path.join [workplaceDir env (this m); "out/pic.png"] in
       path.join [workplaceDir env (this m); "out"] ∉ denied (os m) →
       target ∉ denied (os m) →
       (∃ res, r.1 = Return res)
       ∧ trace (os r.2)
         = trace (os m)
           ++ [GenerateContentCall client params;
               Mkdir (path.join [workplaceDir env (this m); "out"]);
               WriteFile target (template (inline_data d))]
       ∧ files (os r.2) !! target = Some (template (inline_data d))
       ∧ lastImagePath (this r.2) = Some target
       ∧ ∀ query,
           name query = "get_last_image_info" →
           handler env query r.2
           = (Return {| content :=
                          [TextItem (last_image_found_text target
                                       (stat env target).1 (stat env target).2)] |},
              r.2)).
Proof.
  intros r. split.
  - destruct (handler_writes env request m)
      as (pre & ws & Hp & Ht & Hf & Hl & _ & Hs).
    exists pre, ws. repeat split; try done.
    + intros w Hw. unfold r. rewrite Hf. by apply write_all_last.
    + intros Habs. eapply Forall_impl; [exact Hs|].
      intros w (args & fileName & _ & ->).
      by apply isAbsolute_join, imagesDir_absolute.
  - intros args client params response d Hn Hc Ha Hg Ho Hs Hrsp Hi target Hdir Htarget.
    pose proof (image_tool_run env request args client params m Hn Hc Ha Hg Ho)
      as Hrun.
    simpl in Hrun. rewrite Hs, Hrsp, imagesDir_out_pic in Hrun.
    rewrite bool_decide_eq_false_2 in Hrun by done.
    destruct Hrun as (ws & He & Hnames & Hr). fold r in He, Hr.
    assert (∀ file, saved_in env (name_prefix (name request)) (Some "out/pic.png")
                      (path.join [workplaceDir env (this m); "out"]) file →
                    file = target) as Hfile.
    { intros file (fileName & [(p & [= <-] & _ & ->)|[Ht _]] & ->); [|done].
      apply (join_nested _ "out" "pic.png"); [apply plain_out | apply plain_pic_png]. }
    assert (buffers_of (default [] (response_parts response))
            = [template (inline_data d)]) as Hb.
    { unfold buffers_of. fold (image_parts response). by rewrite Hi. }
    rewrite Hb in Hr.
    destruct r.1 as [res|e] eqn:Hout.
    2: { destruct Hr as (_ & _ & file & Hsaved & Hden & _).
         rewrite (Hfile file Hsaved) in Hden. done. }
    destruct Hr as [_ Hw].
    destruct ws as [|[file buffer] [|w ws]]; try done.
    injection Hw as ->.
    apply Forall_cons in Hnames as [Hsaved _]. simpl in Hsaved.
    rewrite (Hfile file Hsaved) in He. clear Hfile Hsaved file.
    destruct He. simpl in *.
    split; [eauto|]. split; [done|].
    assert (files (os r.2) !! target = Some (template (inline_data d))) as Hread.
    { rewrite effects_files0. apply lookup_insert_eq. }
    split; [done|]. split; [done|].
    intros query Hq. apply handler_return.
    rewrite (dispatch_last _ _ Hq).
    eapply getLastImageInfo_found; [done| |done].
    apply join_nonempty.
Qed.

End LastImage.

(** ** The properties at work on the concrete server *)

(** C1 on the server just started without a key. *)
Lemma unconfigured_call_rejected_witness :
  (name (demo.generate "a cat" None) = "generate_image"
   ∨ name (demo.generate "a cat" None) = "edit_image")
  ∧ config (this demo.fresh) = None
  ∧ handler demo.env (demo.generate "a cat" None) demo.fresh
    = (Throw (McpError InvalidRequest
                "Gemini API token not configured. Use configure_gemini_token first."),
       demo.fresh).
Proof.
  split; [left; reflexivity|]. split; [reflexivity|].
  apply (unconfigured_call_rejected demo.env); [left; reflexivity | reflexivity].
Defined.

(** C3 on the server started with a key and a workplace path. *)
Lemma empty_credential_rejected_witness :
  name demo.configure_empty = "configure_gemini_token"
  ∧ arguments demo.configure_empty = Some (demo.with_apiKey "")
  ∧ apiKey (demo.with_apiKey "") = Some ""
  ∧ handler demo.env demo.configure_empty demo.hosted
    = (Throw (McpError InvalidParams "Invalid API key: Gemini API key is required"),
       demo.hosted).
Proof.
  repeat (split; [reflexivity|]).
  apply (empty_credential_rejected demo.env _ (demo.with_apiKey "")); reflexivity.
Defined.

(** C4 on the server started with a key and a workplace path: the key
    is replaced, the path stays. *)
Lemma configure_keeps_workplacePath_witness :
  name demo.configure = "configure_gemini_token"
  ∧ arguments demo.configure = Some (demo.with_apiKey "AIza-demo")
  ∧ apiKey (demo.with_apiKey "AIza-demo") = Some "AIza-demo"
  ∧ "AIza-demo" ≠ ""
  ∧ config (this demo.hosted)
    = Some {| geminiApiKey := "AIza-old"; workplacePath := Some "/srv/images" |}
  ∧ config (this (handler demo.hosted_env demo.configure demo.hosted).2)
    = Some {| geminiApiKey := "AIza-demo"; workplacePath := Some "/srv/images" |}.
Proof.
  repeat (split; [done|]).
  apply (configure_keeps_workplacePath demo.hosted_env demo.configure
           (demo.with_apiKey "AIza-demo") "AIza-demo" demo.hosted); done.
Defined.

(** C9 on the server started from the environment and then configured
    by the tool. *)
Lemma status_after_configure_witness :
  name demo.configure = "configure_gemini_token"
  ∧ arguments demo.configure = Some (demo.with_apiKey "AIza-demo")
  ∧ apiKey (demo.with_apiKey "AIza-demo") = Some "AIza-demo"
  ∧ "AIza-demo" ≠ ""
  ∧ name demo.status = "get_configuration_status"
  ∧ configSource (this demo.hosted) = environment
  ∧ configSource (this (handler demo.hosted_env demo.configure demo.hosted).2) = config_file
  ∧ handler demo.hosted_env demo.status
      (handler demo.hosted_env demo.configure demo.hosted).2
    = (Return {| content :=
                   [TextItem (configured_status_text +:+ source_config_file_text
                              +:+ workplace_text demo.hosted_env
                                    (this (handler demo.hosted_env demo.configure
                                             demo.hosted).2))] |},
       (handler demo.hosted_env demo.configure demo.hosted).2).
Proof.
  repeat (split; [done|]).
  pose proof (status_after_configure demo.hosted_env demo.configure
                (demo.with_apiKey "AIza-demo") "AIza-demo" demo.status demo.hosted
                eq_refl eq_refl eq_refl ltac:(done) eq_refl) as (H1 & H2 & _).
  exact H1.
Defined.


(** C6 on an edit with one reference that is missing and one that is
    there. *)
Lemma edit_request_parts_witness :
  name demo.edit = "edit_image"
  ∧ files (os demo.ready) !! "/in/photo.PNG" = Some "UEhPVE8="
  ∧ files (os demo.ready) !! "/in/missing.png" = None
  ∧ ∃ rest,
      trace (os (handler demo.env demo.edit demo.ready).2)
      = trace (os demo.ready)
        ++ GenerateContentCall {| client_apiKey := "AIza-demo" |}
             {| model := image_model;
                contents :=
                  PartsContents
                    [InlinePart "UEhPVE8=" "image/png";
                     InlinePart "U1RZTEU=" "image/webp";
                     TextPart (Some "add a hat")] |}
           :: rest
      ∧ Forall (λ e, is_request e = false) rest.
Proof.
  split; [reflexivity|]. split; [reflexivity|]. split; [reflexivity|].
  apply (edit_request_parts demo.env demo.edit
           (demo.with_image "/in/photo.PNG" "add a hat"
              (Some ["/in/missing.png"; "/in/style.webp"]))
           {| geminiApiKey := "AIza-demo"; workplacePath := None |}
           {| client_apiKey := "AIza-demo" |} "/in/photo.PNG" "UEhPVE8=" demo.ready);
    reflexivity.
Defined.


(** C2 does not hold as stated: [generate_image] without a prompt, on a
    configured server, calls the client and fails with [InternalError];
    [edit_image] without an image path fails with [InternalError] too. *)
Lemma missing_prompt_reaches_the_client :
  prompt no_arguments = None
  ∧ (handler demo.env demo.generate_nothing demo.ready).1
    = Throw (McpError InternalError "Failed to generate image: contents are required")
  ∧ trace (os (handler demo.env demo.generate_nothing demo.ready).2)
    = [GenerateContentCall {| client_apiKey := "AIza-demo" |}
         {| model := "gemini-2.5-flash-image-preview";
            contents := PromptContents None |}]
  ∧ imagePath no_arguments = None
  ∧ ∃ message,
      (handler demo.env demo.edit_nothing demo.ready).1
      = Throw (McpError InternalError message).
Proof.
  split; [reflexivity|]. split; [by vm_compute|]. split; [by vm_compute|].
  split; [reflexivity|]. eexists. by vm_compute.
Qed.

(** C2, as the code has it, on [configure_gemini_token] without a key. *)
Lemma missing_argument_witness :
  apiKey no_arguments = None
  ∧ handler demo.hosted_env (demo.call "configure_gemini_token" no_arguments) demo.hosted
    = (Throw (McpError InvalidParams "Invalid API key: Required"), demo.hosted).
Proof.
  split; [reflexivity|].
  exact (proj1 (missing_argument demo.hosted_env
                  (demo.call "configure_gemini_token" no_arguments) demo.hosted)
           no_arguments eq_refl eq_refl eq_refl).
Defined.

(** C8 does not hold as stated: with a relative workplace path the file
    is written at a relative path, and that path is recorded. *)
Lemma relative_workplace_relative_path :
  workplaceDir demo.relative_env (this demo.relative) = "images"
  ∧ trace (os (handler demo.relative_env demo.save_pic demo.relative).2)
    = [GenerateContentCall {| client_apiKey := "AIza-demo" |}
         {| model := "gemini-2.5-flash-image-preview";
            contents := PromptContents (Some "a cat") |};
       Mkdir "images/out";
       WriteFile "images/out/pic.png" "Q0FU"]
  ∧ lastImagePath (this (handler demo.relative_env demo.save_pic demo.relative).2)
    = Some "images/out/pic.png"
  ∧ path.isAbsolute "images/out/pic.png" = false.
Proof. repeat split; by vm_compute. Qed.

(** C8, as the code has it, on the round trip of [out/pic.png]. *)
Lemma last_image_path_is_last_written_witness :
  files (os (handler demo.env demo.save_pic demo.ready).2) !! "/home/user/out/pic.png"
  = Some "Q0FU"
  ∧ lastImagePath (this (handler demo.env demo.save_pic demo.ready).2)
    = Some "/home/user/out/pic.png"
  ∧ handler demo.env demo.last_image (handler demo.env demo.save_pic demo.ready).2
    = (Return {| content :=
                   [TextItem (last_image_found_text "/home/user/out/pic.png" 2600
                                "9/1/2025, 10:20:30 AM")] |},
       (handler demo.env demo.save_pic demo.ready).2).
Proof.
  destruct (proj2 (last_image_path_is_last_written demo.env demo.save_pic demo.ready)
              (demo.with_prompt "a cat" (Some "out/pic.png"))
              {| client_apiKey := "AIza-demo" |}
              {| model := image_model; contents := PromptContents (Some "a cat") |}
              (demo.response [demo.image "Q0FU" (Some "image/png")])
              {| inline_data := Some "Q0FU"; inline_mimeType := Some "image/png" |}
              (or_introl eq_refl) eq_refl eq_refl eq_refl eq_refl eq_refl eq_refl eq_refl
              ltac:(apply (not_elem_of_empty (C:=gset string)))
              ltac:(apply (not_elem_of_empty (C:=gset string))))
    as (_ & _ & Hfile & Hlast & Hquery).
  split; [exact Hfile|]. split; [exact Hlast|].
  exact (Hquery demo.last_image eq_refl).
Defined.

(** C10 does not hold as stated: a call that fails on its second write
    has moved the last image path to its first file. *)
Lemma failed_call_moves_lastImagePath :
  lastImagePath (this demo.after_first)
  = Some "/home/user/generated-2025-09-01T10-20-30-456Z-k3j9x2.png"
  ∧ (handler demo.env (demo.generate "two cats" None) demo.after_first).1
    = Throw (McpError InternalError
               "Failed to generate image: EACCES: permission denied, open '/home/user/generated-2025-09-01T10-20-32-456Z-k3j9x2.png'")
  ∧ lastImagePath (this (handler demo.env (demo.generate "two cats" None)
                           demo.after_first).2)
    = Some "/home/user/generated-2025-09-01T10-20-31-456Z-k3j9x2.png".
Proof. repeat split; by vm_compute. Qed.

(** C10, as the code has it, over a session of calls that fail or write
    nothing. *)
Lemma lastImagePath_only_moves_to_written_witness :
  lastImagePath (this demo.after_first) ≠ None
  ∧ lastImagePath
      (this (serve demo.env
               [demo.generate "two cats" None; demo.last_image; demo.configure_empty;
                demo.generate_nothing]
               demo.after_first)) ≠ None.
Proof.
  split; [done|].
  apply (proj2 (lastImagePath_only_moves_to_written demo.env demo.status
                  demo.after_first)).
  done.
Defined.

(** ** The rest of the request handler *)

Section Coverage.

Context (env : Env).

(** *** Tools that are not there, and failures *)

Lemma not_a_tool request :
  name request ∉ tool_names →
  name request ≠ "configure_gemini_token"
  ∧ name request ≠ "generate_image"
  ∧ name request ≠ "edit_image"
  ∧ name request ≠ "get_configuration_status"
  ∧ name request ≠ "get_last_image_info".
Proof.
  unfold tool_names. intros H. repeat split; intros E; apply H; rewrite E;
    repeat (constructor || (apply list_elem_of_further)).
Qed.

Lemma unknown_tool request m :
  name request ∉ tool_names →
  handler env request m
  = (Throw (McpError MethodNotFound ("Unknown tool: " +:+ name request)), m).
Proof.
  intros H. destruct (not_a_tool request H) as (H1 & H2 & H3 & H4 & H5).
  apply handler_mcp. by rewrite dispatch_unknown.
Qed.

(** X1.  A call whose name is none of the five of the [switch] throws
    [MethodNotFound] with the message [Unknown tool: name], and the
    machine is as before: no handler ran.  The status texts of the image
    tools point the caller to [continue_editing], which is such a
    name. *)
Theorem unknown_tool_rejected request m :
  name request ∉ tool_names →
  handler env request m
  = (Throw (McpError MethodNotFound ("Unknown tool: " +:+ name request)), m)
  ∧ "continue_editing" ∉ tool_names.
Proof.
  intros H. split; [by apply unknown_tool|].
  unfold tool_names. intros Hin.
  repeat (apply elem_of_cons in Hin as [Hin|Hin]; [done|]).
  by apply elem_of_nil in Hin.
Qed.

Lemma getLastImageInfo_returns m :
  ∃ text, getLastImageInfo env m = (Return {| content := [TextItem text] |}, m).
Proof.
  unfold getLastImageInfo.
  change (@mbind IO IO_bind) with IO_bind. unfold IO_bind at 1, read_this.
  destruct (negb _); [by eexists|].
  unfold try_catch, IO_bind, fs_access.
  destruct (files (os m) !! _); by eexists.
Qed.

Lemma configure_cases request m :
  ((configureGeminiToken request m).2 = m
   ∧ ∃ e, (configureGeminiToken request m).1 = Throw e
          ∧ (e = Error ("Cannot destructure property 'apiKey' of "
                        +:+ "'request.params.arguments' as it is undefined.")
               ∧ arguments request = None
             ∨ ∃ message, e = McpError InvalidParams message))
  ∨ (∃ args key,
       arguments request = Some args ∧ apiKey args = Some key ∧ key ≠ ""
       ∧ configureGeminiToken request m
         = (Return {| content := [TextItem configured_text] |}, configured_with key m)).
Proof.
  destruct (arguments request) as [args|] eqn:Ha.
  - destruct (apiKey args) as [key|] eqn:Hk.
    + destruct (decide (key = "")) as [->|Hne].
      * left. rewrite (configure_rejected _ args _ ["Gemini API key is required"] Ha)
          by (by rewrite Hk).
        split; [done|]. eauto.
      * right. exists args, key. repeat split; try done.
        by apply (configure_accepted _ args).
    + left. rewrite (configure_rejected _ args _ ["Required"] Ha) by (by rewrite Hk).
      split; [done|]. eauto.
  - left. unfold configureGeminiToken.
    change (@mbind IO IO_bind) with IO_bind. unfold IO_bind, destructure.
    rewrite Ha. split; [done|]. eexists. split; [reflexivity|]. left. done.
Qed.

Lemma plain_tool_quiet request m :
  name request ≠ "configure_gemini_token" →
  name request ≠ "generate_image" →
  name request ≠ "edit_image" →
  (handler env request m).2 = m.
Proof.
  intros Hc Hg He. rewrite handler_machine. unfold dispatch.
  rewrite (bool_decide_eq_false_2 _ Hc), (bool_decide_eq_false_2 _ Hg),
    (bool_decide_eq_false_2 _ He).
  repeat case_bool_decide.
  - apply getConfigurationStatus_quiet.
  - apply getLastImageInfo_quiet.
  - done.
Qed.

(** A configured image tool returns or throws [InternalError]. *)
Lemma image_tool_outcome_configured request m :
  name request = "generate_image" ∨ name request = "edit_image" →
  ensureConfigured (this m) = true →
  match (handler env request m).1 with
  | Return _ => True
  | Throw (McpError InternalError _) => True
  | Throw _ => False
  end.
Proof.
  intros Hn Hc.
  destruct (proj1 (ensureConfigured_true _) Hc) as (c & client & _ & Hg).
  destruct (arguments request) as [args|] eqn:Ha.
  2: { by destruct (image_tool_no_arguments env _ _ Hn Hc Ha) as [msg ->]. }
  destruct (outbound (name request) args (os m)) as [params|] eqn:Ho.
  2: { destruct Hn as [Hn|Hn]; rewrite Hn in Ho; [done|].
       destruct (editImage_unreadable env request args m Hc Ha Ho) as [e He].
       rewrite <- (dispatch_edit env _ Hn) in He.
       by rewrite (handler_mcp env _ _ _ _ _ He). }
  pose proof (image_tool_run env request args client params m Hn Hc Ha Hg Ho) as Hrun.
  simpl in Hrun.
  destruct (generateContent env _ client params) as [e|response].
  { by rewrite Hrun. }
  destruct (bool_decide _).
  { by rewrite Hrun. }
  destruct Hrun as (ws & _ & _ & Hr).
  destruct (handler env request m).1 as [res|e]; [done|].
  by destruct Hr as (_ & _ & file & _ & _ & ->).
Qed.

(** X2.  Whatever the call, what the handler throws is an [McpError].
    Its code tells where it came from: [InvalidParams] only from
    [configure_gemini_token], [InvalidRequest] only from an image tool
    called on a server that is not configured, [MethodNotFound] only for
    a name that is none of the five tools; everything else is
    [InternalError]. *)
Theorem failures_are_protocol_errors request m e :
  (handler env request m).1 = Throw e →
  ∃ code message,
    e = McpError code message
    ∧ (code = InvalidParams → name request = "configure_gemini_token")
    ∧ (code = InvalidRequest →
       (name request = "generate_image" ∨ name request = "edit_image")
       ∧ ensureConfigured (this m) = false)
    ∧ (code = MethodNotFound → name request ∉ tool_names).
Proof.
  intros Hr.
  destruct (decide (name request ∈ tool_names)) as [Hin|Hout].
  2: { rewrite (unknown_tool request m Hout) in Hr.
       injection Hr as <-. eexists _, _. split; [done|]. by repeat split. }
  unfold tool_names in Hin.
  repeat (apply elem_of_cons in Hin as [Hn|Hin]); [| | | | |by apply elem_of_nil in Hin].
  - unfold handler, try_catch in Hr. rewrite (dispatch_configure env _ Hn) in Hr.
    destruct (configure_cases request m) as [[_ (e' & He' & Hcase)]|Hok].
    + destruct (configureGeminiToken request m) as [o m']. simpl in *. subst o.
      destruct Hcase as [[-> _]|[msg ->]]; simpl in Hr; injection Hr as <-;
        eexists _, _; (split; [done|]); by repeat split.
    + destruct Hok as (args & key & _ & _ & _ & Hok). by rewrite Hok in Hr.
  - assert (name request = "generate_image" ∨ name request = "edit_image") as Hi by auto.
    destruct (ensureConfigured_false_or (this m)) as [Hu|[Hc _]].
    + rewrite (image_tool_unconfigured env _ _ Hi Hu) in Hr. injection Hr as <-.
      eexists _, _. split; [done|]. by repeat split.
    + pose proof (image_tool_outcome_configured request m Hi Hc) as Ho.
      rewrite Hr in Ho. destruct e as [[] msg| |]; try done.
      eexists _, _. split; [done|]. by repeat split.
  - assert (name request = "generate_image" ∨ name request = "edit_image") as Hi by auto.
    destruct (ensureConfigured_false_or (this m)) as [Hu|[Hc _]].
    + rewrite (image_tool_unconfigured env _ _ Hi Hu) in Hr. injection Hr as <-.
      eexists _, _. split; [done|]. by repeat split.
    + pose proof (image_tool_outcome_configured request m Hi Hc) as Ho.
      rewrite Hr in Ho. destruct e as [[] msg| |]; try done.
      eexists _, _. split; [done|]. by repeat split.
  - unfold handler, try_catch in Hr. by rewrite (dispatch_status env _ Hn) in Hr.
  - unfold handler, try_catch in Hr. rewrite (dispatch_last env _ Hn) in Hr.
    destruct (getLastImageInfo_returns m) as [text Hres]. by rewrite Hres in Hr.
Qed.


(** X3.  When the call carries no [arguments] object, the destructuring
    at the head of [configureGeminiToken], and of the image tools once
    the server is configured, throws outside every [try] of the tool:
    the handler wraps it as [InternalError] with a message that starts
    with [Tool execution failed: ], and the machine is as before. *)
Theorem missing_arguments_object request m :
  arguments request = None →
  name request = "configure_gemini_token"
  ∨ ((name request = "generate_image" ∨ name request = "edit_image")
     ∧ ensureConfigured (this m) = true) →
  ∃ detail,
    handler env request m
    = (Throw (McpError InternalError ("Tool execution failed: " +:+ detail)), m).
Proof.
  intros Ha [Hn|[[Hn|Hn] Hc]]; eexists; unfold handler, try_catch.
  - rewrite (dispatch_configure env _ Hn). unfold configureGeminiToken.
    change (@mbind IO IO_bind) with IO_bind. unfold IO_bind, destructure.
    rewrite Ha. reflexivity.
  - rewrite (dispatch_generate env _ Hn). unfold generateImage.
    change (@mbind IO IO_bind) with IO_bind. unfold IO_bind, read_this, destructure.
    rewrite Hc, Ha. reflexivity.
  - rewrite (dispatch_edit env _ Hn). unfold editImage.
    change (@mbind IO IO_bind) with IO_bind. unfold IO_bind, read_this, destructure.
    rewrite Hc, Ha. reflexivity.
Qed.

(** *** The two queries *)

(** X4.  [get_configuration_status] and [get_last_image_info] always
    return, with a single text entry, whatever the arguments and the
    state of the server and of the files, and they leave the machine as
    it was. *)
Theorem queries_are_read_only request m :
  name request = "get_configuration_status" ∨ name request = "get_last_image_info" →
  ∃ text, handler env request m = (Return {| content := [TextItem text] |}, m).
Proof.
  intros [Hn|Hn].
  - exists (status_text env (this m)). apply handler_return.
    by rewrite (dispatch_status env _ Hn).
  - destruct (getLastImageInfo_returns m) as [text Ht]. exists text.
    apply handler_return. by rewrite (dispatch_last env _ Hn).
Qed.

(** X5.  What [get_last_image_info] answers: with no path recorded, the
    text that there is no previous image; with a path recorded whose
    file is gone, the text with that path and the status that the file
    was not found; with a path recorded whose file is there, the text
    with that path, the size rounded to kilobytes and the modification
    time that [fs.stat] gives. *)
Theorem last_image_report request m :
  name request = "get_last_image_info" →
  (lastImagePath (this m) = None →
   handler env request m
   = (Return {| content := [TextItem no_previous_image_text] |}, m))
  ∧ (∀ p, lastImagePath (this m) = Some p → p ≠ "" →
          files (os m) !! p = None →
          handler env request m
          = (Return {| content := [TextItem (last_image_missing_text p)] |}, m))
  ∧ (∀ p buffer, lastImagePath (this m) = Some p → p ≠ "" →
          files (os m) !! p = Some buffer →
          handler env request m
          = (Return {| content :=
                         [TextItem (last_image_found_text p (stat env p).1
                                      (stat env p).2)] |}, m)).
Proof.
  intros Hn. repeat split.
  - intros Hl. apply handler_return. rewrite (dispatch_last env _ Hn).
    unfold getLastImageInfo.
    change (@mbind IO IO_bind) with IO_bind. unfold IO_bind at 1, read_this.
    by rewrite Hl.
  - intros p Hl Hne Hf. apply handler_return. rewrite (dispatch_last env _ Hn).
    unfold getLastImageInfo.
    change (@mbind IO IO_bind) with IO_bind. unfold IO_bind at 1, read_this.
    rewrite Hl. simpl. rewrite bool_decide_eq_true_2 by done. simpl.
    unfold try_catch, IO_bind, fs_access. by rewrite Hf.
  - intros p buffer Hl Hne Hf. apply handler_return.
    rewrite (dispatch_last env _ Hn). by eapply getLastImageInfo_found.
Qed.

(** *** Start-up *)

Lemma boot_with_key w key :
  GEMINI_API_KEY env = Some key →
  key ≠ "" →
  boot env w
  = {| this := {| genAI := Some {| client_apiKey := key |};
                  config := Some {| geminiApiKey := key;
                                    workplacePath := WORKPLACE_PATH env |};
                  lastImagePath := None;
                  configSource := environment |};
       os := w |}.
Proof.
  intros Hk Hne. unfold boot, loadConfig.
  change (@mbind IO IO_bind) with IO_bind. unfold IO_bind at 1.
  rewrite Hk. unfold truthy. rewrite bool_decide_eq_true_2 by done.
  unfold try_catch, IO_bind, parse, ConfigSchema_parse.
  rewrite bool_decide_eq_true_2; [reflexivity|].
  destruct key; [done|simpl; lia].
Qed.

Lemma boot_without_key w :
  truthy (GEMINI_API_KEY env) = false →
  boot env w = {| this := new_NanoBananaMCP; os := w |}.
Proof.
  intros Hk. unfold boot, loadConfig.
  change (@mbind IO IO_bind) with IO_bind. unfold IO_bind at 1.
  by rewrite Hk.
Qed.

(** X6.  Started with a non-empty [GEMINI_API_KEY], the server is
    configured from the environment: [config] holds that key and
    [WORKPLACE_PATH] as it is, the client is made from the key, no image
    is recorded, the world is untouched, and [get_configuration_status]
    answers with the lines of the [environment] source. *)
Theorem started_with_key w key query :
  GEMINI_API_KEY env = Some key →
  key ≠ "" →
  name query = "get_configuration_status" →
  boot env w
  = {| this := {| genAI := Some {| client_apiKey := key |};
                  config := Some {| geminiApiKey := key;
                                    workplacePath := WORKPLACE_PATH env |};
                  lastImagePath := None;
                  configSource := environment |};
       os := w |}
  ∧ handler env query (boot env w)
    = (Return {| content :=
                   [TextItem (configured_status_text +:+ source_environment_text
                              +:+ workplace_text env (this (boot env w)))] |},
       boot env w).
Proof.
  intros Hk Hne Hq. split; [by apply boot_with_key|].
  apply handler_return. rewrite (dispatch_status env _ Hq).
  rewrite (boot_with_key w key Hk Hne). reflexivity.
Qed.

(** X7.  Started without [GEMINI_API_KEY], or with an empty one, the
    server is not configured, whatever [WORKPLACE_PATH] says:
    [get_configuration_status] answers that the token is not configured,
    with the configuration options, and [generate_image] and
    [edit_image] are turned away with [InvalidRequest]. *)
Theorem started_without_key w request :
  truthy (GEMINI_API_KEY env) = false →
  boot env w = {| this := new_NanoBananaMCP; os := w |}
  ∧ (name request = "get_configuration_status" →
     handler env request (boot env w)
     = (Return {| content :=
                    [TextItem (unconfigured_status_text
                               +:+ configuration_options_text)] |},
        boot env w))
  ∧ (name request = "generate_image" ∨ name request = "edit_image" →
     handler env request (boot env w)
     = (Throw (McpError InvalidRequest not_configured_text), boot env w)).
Proof.
  intros Hk. rewrite (boot_without_key w Hk). repeat split.
  - intros Hq. apply handler_return. by rewrite (dispatch_status env _ Hq).
  - intros Hn. by apply image_tool_unconfigured.
Qed.


(** *** What stays as it is over a session *)

Lemma image_tool_keeps_configuration request m :
  name request = "generate_image" ∨ name request = "edit_image" →
  genAI (this (handler env request m).2) = genAI (this m)
  ∧ config (this (handler env request m).2) = config (this m)
  ∧ configSource (this (handler env request m).2) = configSource (this m).
Proof.
  intros Hn. destruct (arguments request) as [args|] eqn:Ha.
  - by destruct (image_tool_effects env request args m Hn Ha) as (pre & ws & [] & _).
  - destruct (ensureConfigured_false_or (this m)) as [Hu|(Hc & _)].
    + by rewrite (image_tool_unconfigured env _ _ Hn Hu).
    + by destruct (image_tool_no_arguments env _ _ Hn Hc Ha) as [msg ->].
Qed.

Lemma handler_keeps_configuration request m :
  name request ≠ "configure_gemini_token" →
  genAI (this (handler env request m).2) = genAI (this m)
  ∧ config (this (handler env request m).2) = config (this m)
  ∧ configSource (this (handler env request m).2) = configSource (this m).
Proof.
  intros Hc.
  destruct (decide (name request = "generate_image")) as [Hg|Hg];
    [apply image_tool_keeps_configuration; auto|].
  destruct (decide (name request = "edit_image")) as [He|He];
    [apply image_tool_keeps_configuration; auto|].
  by rewrite plain_tool_quiet.
Qed.

Lemma handler_configure_cases request m :
  name request = "configure_gemini_token" →
  (handler env request m).2 = m
  ∨ ∃ key, key ≠ "" ∧ (handler env request m).2 = configured_with key m.
Proof.
  intros Hn. rewrite handler_machine, (dispatch_configure env _ Hn).
  destruct (configure_cases request m) as [[Hm _]|(args & key & _ & _ & Hne & Hok)].
  - by left.
  - right. exists key. by rewrite Hok.
Qed.

Lemma handler_well_formed request m :
  well_formed (this m) → well_formed (this (handler env request m).2).
Proof.
  intros Hwf.
  destruct (decide (name request = "configure_gemini_token")) as [Hn|Hn].
  - destruct (handler_configure_cases request m Hn) as [->|(key & Hne & ->)]; [done|].
    unfold well_formed. simpl. done.
  - destruct (handler_keeps_configuration request m Hn) as (Hg & Hc & Hs).
    unfold well_formed in *. by rewrite Hg, Hc, Hs.
Qed.

Lemma boot_cases w :
  (truthy (GEMINI_API_KEY env) = false
   ∧ boot env w = {| this := new_NanoBananaMCP; os := w |})
  ∨ ∃ key, GEMINI_API_KEY env = Some key ∧ key ≠ ""
           ∧ boot env w
             = {| this := {| genAI := Some {| client_apiKey := key |};
                             config := Some {| geminiApiKey := key;
                                               workplacePath := WORKPLACE_PATH env |};
                             lastImagePath := None;
                             configSource := environment |};
                  os := w |}.
Proof.
  destruct (truthy (GEMINI_API_KEY env)) eqn:Ht.
  - right. destruct (GEMINI_API_KEY env) as [key|] eqn:Hk; [|done].
    simpl in Ht. apply bool_decide_eq_true in Ht.
    exists key. repeat split; try done. by apply boot_with_key.
  - left. split; [done|]. by apply boot_without_key.
Qed.

(** X8.  From start-up on and after any sequence of calls, [config],
    [genAI] and [configSource] go together: either all three are unset
    (no configuration, no client, source [not_configured]), or there is
    a configuration with a non-empty key, the client is the one made
    from that same key, and the source is not [not_configured].  There
    is no half-configured state. *)
Theorem session_well_formed requests w :
  well_formed (this (serve env requests (boot env w))).
Proof.
  assert (well_formed (this (boot env w))) as Hboot.
  { destruct (boot_cases w) as [[_ ->]|(key & _ & Hne & ->)]; by unfold well_formed. }
  revert Hboot. generalize (boot env w).
  induction requests as [|request requests IH]; intros m Hwf; [done|].
  simpl. apply IH. by apply handler_well_formed.
Qed.

(** The workplace path of the live configuration, if any. *)
Lemma handler_keeps_workplacePath request m :
  (c ← config (this (handler env request m).2); workplacePath c)
  = (c ← config (this m); workplacePath c).
Proof.
  destruct (decide (name request = "configure_gemini_token")) as [Hn|Hn].
  - by destruct (handler_configure_cases request m Hn) as [->|(key & Hne & ->)].
  - by destruct (handler_keeps_configuration request m Hn) as (_ & -> & _).
Qed.

(** X9.  The directory the images go to is settled at start-up and no
    call changes it: it is [WORKPLACE_PATH] when the server was started
    with a non-empty [GEMINI_API_KEY] and a non-empty [WORKPLACE_PATH],
    and the working directory otherwise.  In particular a
    [WORKPLACE_PATH] given without [GEMINI_API_KEY] is never used, also
    after [configure_gemini_token]. *)
Theorem workplace_is_fixed requests w :
  workplaceDir env (this (serve env requests (boot env w)))
  = if truthy (GEMINI_API_KEY env)
    then or_else (WORKPLACE_PATH env) (cwd env)
    else cwd env.
Proof.
  assert (workplaceDir env (this (boot env w))
          = if truthy (GEMINI_API_KEY env)
            then or_else (WORKPLACE_PATH env) (cwd env)
            else cwd env) as Hboot.
  { destruct (boot_cases w) as [[Ht Hb]|(key & Hk & Hne & Hb)]; rewrite Hb.
    - by rewrite Ht.
    - rewrite Hk. simpl. by rewrite bool_decide_eq_true_2. }
  rewrite <- Hboot. generalize (boot env w). clear Hboot.
  induction requests as [|request requests IH]; intros m; [done|].
  simpl. rewrite IH. unfold workplaceDir.
  by rewrite handler_keeps_workplacePath.
Qed.

Lemma handler_stays_configured request m :
  ensureConfigured (this m) = true →
  ensureConfigured (this (handler env request m).2) = true.
Proof.
  intros Hc.
  destruct (decide (name request = "configure_gemini_token")) as [Hn|Hn].
  - by destruct (handler_configure_cases request m Hn) as [->|(key & Hne & ->)].
  - destruct (handler_keeps_configuration request m Hn) as (Hg & Hcf & _).
    unfold ensureConfigured in *. by rewrite Hg, Hcf.
Qed.

(** X10.  No call takes the configuration away: once the server is
    configured it stays configured over any sequence of calls, failed
    [configure_gemini_token] calls included. *)
Theorem stays_configured requests m :
  ensureConfigured (this m) = true →
  ensureConfigured (this (serve env requests m)) = true.
Proof.
  revert m. induction requests as [|request requests IH]; intros m Hc; [done|].
  simpl. by apply IH, handler_stays_configured.
Qed.

Lemma handler_configured_with request args key m :
  name request = "configure_gemini_token" →
  arguments request = Some args →
  apiKey args = Some key →
  key ≠ "" →
  handler env request m
  = (Return {| content := [TextItem configured_text] |}, configured_with key m).
Proof.
  intros Hn Ha Hk Hne. apply handler_return.
  rewrite (dispatch_configure env _ Hn). by apply (configure_accepted _ args).
Qed.

(** X11.  The last [configure_gemini_token] wins: configuring with one
    key and then with another leaves the server exactly as configuring
    with the second key alone (the key and the client replaced, the
    workplace path, the last image path and the world kept); with the
    same key twice, the second call changes nothing. *)
Theorem last_configure_wins first second args1 args2 key1 key2 m :
  name first = "configure_gemini_token" →
  arguments first = Some args1 →
  apiKey args1 = Some key1 →
  key1 ≠ "" →
  name second = "configure_gemini_token" →
  arguments second = Some args2 →
  apiKey args2 = Some key2 →
  key2 ≠ "" →
  handler env second (handler env first m).2 = handler env second m
  ∧ (key1 = key2 → (handler env second (handler env first m).2).2
                    = (handler env first m).2).
Proof.
  intros Hn1 Ha1 Hk1 Hne1 Hn2 Ha2 Hk2 Hne2.
  rewrite (handler_configured_with first args1 key1 m) by done.
  rewrite !(handler_configured_with second args2 key2) by done.
  split; [done|]. by intros ->.
Qed.

(** X12.  Each tool keeps to its part of the state.  Only
    [configure_gemini_token] touches [config], [genAI] and
    [configSource]; only [generate_image] and [edit_image] touch the
    world (files, directories, requests) and the last image path. *)
Theorem tools_keep_to_their_part request m :
  (name request ≠ "configure_gemini_token" →
   genAI (this (handler env request m).2) = genAI (this m)
   ∧ config (this (handler env request m).2) = config (this m)
   ∧ configSource (this (handler env request m).2) = configSource (this m))
  ∧ (name request ≠ "generate_image" → name request ≠ "edit_image" →
     os (handler env request m).2 = os m
     ∧ lastImagePath (this (handler env request m).2) = lastImagePath (this m)).
Proof.
  split; [apply handler_keeps_configuration | apply other_tool_quiet].
Qed.


(** *** The ways an image tool fails *)

(** X13.  When the generative service fails, the image tool fails with
    [InternalError], its message the tool's opening followed by the
    message of the service.  The request was made once and is not tried
    again; no directory was made, no file written, and the server is as
    it was. *)
Theorem service_failure request args client params e m :
  name request = "generate_image" ∨ name request = "edit_image" →
  ensureConfigured (this m) = true →
  arguments request = Some args →
  genAI (this m) = Some client →
  outbound (name request) args (os m) = Some params →
  generateContent env (calls (os m)) client params = inl e →
  handler env request m
  = (Throw (McpError InternalError (failure_of (name request) +:+ error_message e)),
     requested client params m).
Proof.
  intros Hn Hc Ha Hg Ho Hs.
  pose proof (image_tool_run env request args client params m Hn Hc Ha Hg Ho) as Hrun.
  simpl in Hrun. by rewrite Hs in Hrun.
Qed.

(** X14.  When the images directory cannot be made, the image tool fails
    with [InternalError] although the service has answered: the images
    of the response are dropped, no file is written and the last image
    path stays. *)
Theorem directory_failure request args client params response m :
  name request = "generate_image" ∨ name request = "edit_image" →
  ensureConfigured (this m) = true →
  arguments request = Some args →
  genAI (this m) = Some client →
  outbound (name request) args (os m) = Some params →
  generateContent env (calls (os m)) client params = inr response →
  imagesDir env (this m) (relative_save_path args) ∈ denied (os m) →
  ∃ detail,
    handler env request m
    = (Throw (McpError InternalError (failure_of (name request) +:+ detail)),
       requested client params m).
Proof.
  intros Hn Hc Ha Hg Ho Hs Hd.
  pose proof (image_tool_run env request args client params m Hn Hc Ha Hg Ho) as Hrun.
  simpl in Hrun. rewrite Hs, bool_decide_eq_true_2 in Hrun by done. eauto.
Qed.

(** X15.  [edit_image] on a primary image that cannot be read fails with
    [InternalError] and a message that starts with
    [Failed to edit image: ]; nothing was asked of the service, nothing
    written, and the machine is as it was.  The reference images are not
    even looked at. *)
Theorem primary_image_unreadable request args p m :
  name request = "edit_image" →
  ensureConfigured (this m) = true →
  arguments request = Some args →
  imagePath args = Some p →
  files (os m) !! p = None →
  ∃ detail,
    handler env request m
    = (Throw (McpError InternalError ("Failed to edit image: " +:+ detail)), m).
Proof.
  intros Hn Hc Ha Hi Hf.
  assert (outbound "edit_image" args (os m) = None) as Ho.
  { unfold outbound. simpl. rewrite Hi. simpl. by rewrite Hf. }
  destruct (editImage_unreadable env request args m Hc Ha Ho) as [e He].
  rewrite <- (dispatch_edit env _ Hn) in He. eexists. by apply handler_mcp.
Qed.

(** *** The order of what a call does *)

Lemma image_tool_events request m :
  name request = "generate_image" ∨ name request = "edit_image" →
  trace (os (handler env request m).2) = trace (os m)
  ∨ (∃ client params,
       genAI (this m) = Some client
       ∧ trace (os (handler env request m).2)
         = trace (os m) ++ [GenerateContentCall client params])
  ∨ (∃ client params args ws,
       genAI (this m) = Some client
       ∧ arguments request = Some args
       ∧ trace (os (handler env request m).2)
         = trace (os m)
           ++ GenerateContentCall client params
              :: Mkdir (imagesDir env (this m) (relative_save_path args))
              :: (write_event <$> ws)).
Proof.
  intros Hn.
  destruct (ensureConfigured_false_or (this m)) as [Hu|(Hc & c & client & _ & Hg)].
  { left. by rewrite (image_tool_unconfigured env _ _ Hn Hu). }
  destruct (arguments request) as [args|] eqn:Ha.
  2: { left. by destruct (image_tool_no_arguments env _ _ Hn Hc Ha) as [msg ->]. }
  destruct (outbound (name request) args (os m)) as [params|] eqn:Ho.
  2: { left. destruct Hn as [Hn|Hn]; rewrite Hn in Ho; [done|].
       destruct (editImage_unreadable env request args m Hc Ha Ho) as [e He].
       rewrite <- (dispatch_edit env _ Hn) in He.
       by rewrite (handler_mcp env _ _ _ _ _ He). }
  pose proof (image_tool_run env request args client params m Hn Hc Ha Hg Ho) as Hrun.
  simpl in Hrun.
  destruct (generateContent env _ client params) as [e|response].
  { right. left. rewrite Hrun. by exists client, params. }
  destruct (bool_decide _).
  { right. left. rewrite Hrun. by exists client, params. }
  destruct Hrun as (ws & He & _).
  right. right. exists client, params, args, ws. repeat split; try done.
  by rewrite (effects_trace _ _ _ _ He).
Qed.

(** X16.  What one call adds to the trace of effects is nothing, or one
    request to the service through the current client, or that request
    followed by the making of the images directory and then the writes
    of the image files.  So a call asks the service at most once, and
    before it creates or writes anything; the directory is made once,
    after the answer and before the first write. *)
Theorem effects_in_order request m :
  trace (os (handler env request m).2) = trace (os m)
  ∨ (∃ client params,
       genAI (this m) = Some client
       ∧ trace (os (handler env request m).2)
         = trace (os m) ++ [GenerateContentCall client params])
  ∨ (∃ client params args ws,
       genAI (this m) = Some client
       ∧ arguments request = Some args
       ∧ trace (os (handler env request m).2)
         = trace (os m)
           ++ GenerateContentCall client params
              :: Mkdir (imagesDir env (this m) (relative_save_path args))
              :: (write_event <$> ws)).
Proof.
  destruct (decide (name request = "generate_image")) as [Hg|Hg];
    [apply image_tool_events; auto|].
  destruct (decide (name request = "edit_image")) as [He|He];
    [apply image_tool_events; auto|].
  left. by destruct (other_tool_quiet env request m Hg He) as [-> _].
Qed.

(** X17.  [generate_image] after a successful [configure_gemini_token]
    asks the service through the client made from the key just
    configured, with the model [gemini-2.5-flash-image-preview] and the
    prompt as the whole contents. *)
Theorem request_uses_configured_key configure generate cargs gargs key m :
  name configure = "configure_gemini_token" →
  arguments configure = Some cargs →
  apiKey cargs = Some key →
  key ≠ "" →
  name generate = "generate_image" →
  arguments generate = Some gargs →
  ∃ rest,
    trace (os (handler env generate (handler env configure m).2).2)
    = trace (os m)
      ++ GenerateContentCall {| client_apiKey := key |}
           {| model := "gemini-2.5-flash-image-preview";
              contents := PromptContents (prompt gargs) |}
         :: rest.
Proof.
  intros Hn Ha Hk Hne Hg Hga.
  rewrite (handler_configured_with configure cargs key m) by done. simpl.
  set (m1 := configured_with key m).
  pose proof (image_tool_run env generate gargs {| client_apiKey := key |} _ m1
                (or_introl Hg) eq_refl Hga eq_refl
                ltac:(rewrite Hg; apply outbound_generate)) as Hrun.
  simpl in Hrun.
  destruct (generateContent env _ _ _) as [e|response].
  - rewrite Hrun. by exists [].
  - destruct (bool_decide _).
    + rewrite Hrun. by exists [].
    + destruct Hrun as (ws & He & _). eexists.
      by rewrite (effects_trace _ _ _ _ He).
Qed.

End Coverage.

(** ** The mime type of a file *)

Section MimeType.

Import path.








End MimeType.

(** ** The readings behind the generated names *)

Section FreshNames.

Context (env : Env).

Lemma fresh_draws_refl prefix dir m : fresh_draws env prefix dir m m.
Proof.
  split; [done|]. exists []. simpl. rewrite app_nil_r.
  repeat split; constructor.
Qed.

Lemma fresh_draws_trans prefix dir m m1 m2 :
  fresh_draws env prefix dir m m1 →
  fresh_draws env prefix dir m1 m2 →
  fresh_draws env prefix dir m m2.
Proof.
  intros [Hle1 (nws1 & Ht1 & Hd1 & Hw1)] [Hle2 (nws2 & Ht2 & Hd2 & Hw2)].
  split; [lia|]. exists (nws1 ++ nws2). repeat split.
  - by rewrite Ht2, Ht1, fmap_app, <- app_assoc.
  - rewrite fmap_app. apply NoDup_app. repeat split; try done.
    intros n Hn1 Hn2.
    apply (proj1 (Forall_forall _ _) Hw1) in Hn1.
    apply (proj1 (Forall_forall _ _) Hw2) in Hn2. lia.
  - rewrite fmap_app. apply Forall_app. split.
    + eapply Forall_impl; [exact Hw1|]. simpl. lia.
    + eapply Forall_impl; [exact Hw2|]. simpl. lia.
Qed.

Lemma fileName_for_draw prefix rsp :
  truthy rsp = false → fileName_for env prefix rsp = draw_name env prefix.
Proof.
  intros Ht. unfold fileName_for. destruct rsp as [p|]; [|done]. by rewrite Ht.
Qed.

(** Drawing a name and writing the image under it. *)
Lemma fresh_draws_save prefix dir l d m :
  fresh_draws env prefix dir m
    ((fileName ← draw_name env prefix;
      l' ← save_image l (path.join [dir; fileName]) (template (inline_data d));
      mret (push_image l' d (template (inline_data d)))) m).2.
Proof.
  change (@mbind IO IO_bind) with IO_bind. unfold IO_bind at 1, draw_name.
  unfold IO_bind at 1, save_image.
  change (@mbind IO IO_bind) with IO_bind. unfold IO_bind at 1, fs_writeFile.
  simpl. destruct (bool_decide _); simpl.
  - split; [simpl; lia|]. exists []. simpl. rewrite app_nil_r.
    repeat split; constructor.
  - split; [simpl; lia|].
    exists [(draws (os m), template (inline_data d))]. simpl.
    repeat split.
    + apply NoDup_singleton.
    + repeat constructor; lia.
Qed.

Lemma fresh_draws_drawn prefix dir m :
  fresh_draws env prefix dir m (draw_name env prefix m).2.
Proof.
  split; [simpl; lia|]. exists []. simpl. rewrite app_nil_r.
  repeat split; constructor.
Qed.

Lemma generate_part_fresh dir rsp l part m :
  truthy rsp = false →
  fresh_draws env "generated" dir m (generate_part env dir rsp l part m).2.
Proof.
  intros Ht. unfold generate_part. rewrite (fileName_for_draw _ _ Ht).
  destruct (part_inlineData part) as [d|]; [|apply fresh_draws_refl].
  destruct (truthy (inline_data d)); [|apply fresh_draws_refl].
  apply fresh_draws_save.
Qed.

Lemma edit_part_fresh dir rsp l part m :
  truthy rsp = false →
  fresh_draws env "edited" dir m (edit_part env dir rsp l part m).2.
Proof.
  intros Ht. unfold edit_part. rewrite (fileName_for_draw _ _ Ht).
  destruct (part_inlineData part) as [d|]; [|apply fresh_draws_refl].
  destruct (truthy (inline_data d)) eqn:Hd.
  - pose proof (fresh_draws_save "edited" dir (add_text l part) d m) as H.
    change (@mbind IO IO_bind) with IO_bind in *. unfold IO_bind at 1 in H.
    unfold IO_bind at 1. by destruct (draw_name env "edited" m) as [[fileName|e] m1].
  - change (@mbind IO IO_bind) with IO_bind. unfold IO_bind at 1.
    pose proof (fresh_draws_drawn "edited" dir m) as H.
    by destruct (draw_name env "edited" m) as [[fileName|e] m1].
Qed.

Lemma for_of_fresh prefix dir (body : locals → Part → IO locals) :
  (∀ l part m, fresh_draws env prefix dir m (body l part m).2) →
  ∀ ps l m, fresh_draws env prefix dir m (for_of ps body l m).2.
Proof.
  intros Hbody ps. induction ps as [|part ps IH]; intros l m.
  - apply fresh_draws_refl.
  - simpl. change (@mbind IO IO_bind) with IO_bind. unfold IO_bind.
    pose proof (Hbody l part m) as H1.
    destruct (body l part m) as [[l1|e] m1]; [|done].
    eapply fresh_draws_trans; [exact H1 | apply IH].
Qed.

Lemma part_of_fresh tool dir rsp :
  truthy rsp = false →
  ∀ ps l m,
    fresh_draws env (name_prefix tool) dir m
      (for_of ps (part_of env tool dir rsp) l m).2.
Proof.
  intros Ht. apply for_of_fresh. intros l part m.
  unfold part_of, name_prefix. case_bool_decide.
  - by apply generate_part_fresh.
  - by apply edit_part_fresh.
Qed.

Lemma try_map_machine {A B} (c : IO A) (f : A → B) (g : exn → exn) m :
  (try_catch (x ← c; mret (f x)) (λ e, throw (g e)) m).2 = (c m).2.
Proof.
  unfold try_catch. change (@mbind IO IO_bind) with IO_bind. unfold IO_bind.
  by destruct (c m) as [[a|e] m'].
Qed.

(** The machine after an image tool that got its answer and made its
    directory is the machine after the loop over the parts. *)
Lemma image_tool_machine request args client params response m :
  name request = "generate_image" ∨ name request = "edit_image" →
  ensureConfigured (this m) = true →
  arguments request = Some args →
  genAI (this m) = Some client →
  outbound (name request) args (os m) = Some params →
  generateContent env (calls (os m)) client params = inr response →
  imagesDir env (this m) (relative_save_path args) ∉ denied (os m) →
  (handler env request m).2
  = (for_of (default [] (response_parts response))
       (part_of env (name request) (imagesDir env (this m) (relative_save_path args))
          (relative_save_path args))
       no_locals
       (made (imagesDir env (this m) (relative_save_path args))
          (requested client params m))).2.
Proof.
  intros Hn Hc Ha Hg Ho Hs Hd. rewrite handler_machine.
  set (dir := imagesDir env (this m) (relative_save_path args)).
  assert (fs_mkdir dir (requested client params m)
          = (Return tt, made dir (requested client params m))) as Hmk.
  { rewrite fs_mkdir_eq. simpl denied. by rewrite bool_decide_eq_false_2. }
  pose proof (models_generateContent_eq env params client m Hg) as Hreq.
  rewrite Hs in Hreq.
  destruct Hn as [Hn|Hn]; rewrite Hn in *.
  - injection Ho as <-.
    rewrite (dispatch_generate env _ Hn), (generateImage_configured env _ _ _ Hc Ha).
    unfold generateImage_try.
    rewrite (try_bind_return _ _ _ _ _ _ Hreq).
    rewrite (try_bind_return _ _ _ _ dir (requested _ _ m)) by reflexivity.
    rewrite (try_bind_return _ _ _ _ _ _ Hmk).
    rewrite parts_loop_eq. apply try_map_machine.
  - rewrite (dispatch_edit env _ Hn), (editImage_configured env _ _ _ Hc Ha).
    unfold editImage_try. unfold outbound in Ho. simpl in Ho.
    destruct (imagePath args) as [image|] eqn:Hi; [|done]. simpl in Ho.
    destruct (files (os m) !! image) as [buffer|] eqn:Hf; [|done].
    injection Ho as <-.
    rewrite (try_bind_return _ _ _ _ buffer m)
      by (unfold fs_readFile; by rewrite Hf).
    rewrite (try_bind_return _ _ _ _ _ _ (references_eq _ _ _)).
    rewrite (try_bind_return _ _ _ _ _ _ Hreq).
    rewrite (try_bind_return _ _ _ _ dir (requested _ _ m)) by reflexivity.
    rewrite (try_bind_return _ _ _ _ _ _ Hmk).
    rewrite parts_loop_eq. apply try_map_machine.
Qed.

(** X21.  Without [relative_save_path], every image an image tool saves
    is written in the workplace directory under the name stamped with a
    reading of the clock and of the random source that is its own: the
    readings of one call are all different, and they are taken after
    those of the calls before and before those of the calls after, so no
    reading ever names two files. *)
Theorem stamped_names_are_fresh request args m :
  name request = "generate_image" ∨ name request = "edit_image" →
  arguments request = Some args →
  truthy (relative_save_path args) = false →
  (draws (os m) ≤ draws (os (handler env request m).2))%nat
  ∧ ∃ pre nws,
      Forall (λ e, is_write e = false) pre
      ∧ trace (os (handler env request m).2)
        = trace (os m) ++ pre
          ++ (stamped_write env (name_prefix (name request)) (workplaceDir env (this m))
              <$> nws)
      ∧ NoDup nws.*1
      ∧ Forall (λ n, (draws (os m) ≤ n < draws (os (handler env request m).2))%nat)
          nws.*1.
Proof.
  intros Hn Ha Ht.
  assert (imagesDir env (this m) (relative_save_path args) = workplaceDir env (this m))
    as Hdir.
  { unfold imagesDir. destruct (relative_save_path args); [|done]. by rewrite Ht. }
  assert (∀ m', m' = m ∨ (∃ client params, m' = requested client params m) →
                (draws (os m) ≤ draws (os m'))%nat
                ∧ ∃ pre nws,
                    Forall (λ e, is_write e = false) pre
                    ∧ trace (os m')
                      = trace (os m) ++ pre
                        ++ (stamped_write env (name_prefix (name request))
                              (workplaceDir env (this m)) <$> nws)
                    ∧ NoDup nws.*1
                    ∧ Forall (λ n, (draws (os m) ≤ n < draws (os m'))%nat) nws.*1)
    as Hquiet.
  { intros m' [->|(client & params & ->)].
    - split; [done|]. exists [], []. simpl. rewrite app_nil_r.
      repeat split; constructor.
    - split; [simpl; lia|]. exists [GenerateContentCall client params], [].
      simpl. repeat split; by repeat constructor. }
  destruct (ensureConfigured_false_or (this m)) as [Hu|(Hc & c & client & _ & Hg)].
  { apply Hquiet. left. by rewrite (image_tool_unconfigured env _ _ Hn Hu). }
  destruct (outbound (name request) args (os m)) as [params|] eqn:Ho.
  2: { apply Hquiet. left. destruct Hn as [Hn|Hn]; rewrite Hn in Ho; [done|].
       destruct (editImage_unreadable env request args m Hc Ha Ho) as [e He].
       rewrite <- (dispatch_edit env _ Hn) in He.
       by rewrite (handler_mcp env _ _ _ _ _ He). }
  pose proof (image_tool_run env request args client params m Hn Hc Ha Hg Ho) as Hrun.
  simpl in Hrun.
  destruct (generateContent env (calls (os m)) client params) as [e|response] eqn:Hs.
  { apply Hquiet. right. rewrite Hrun. eauto. }
  destruct (bool_decide _) eqn:Hd.
  { apply Hquiet. right. rewrite Hrun. eauto. }
  apply bool_decide_eq_false in Hd. clear Hrun Hquiet.
  rewrite (image_tool_machine request args client params response m) by done.
  rewrite Hdir.
  destruct (part_of_fresh (name request) (workplaceDir env (this m))
              (relative_save_path args) Ht (default [] (response_parts response))
              no_locals
              (made (workplaceDir env (this m)) (requested client params m)))
    as [Hle (nws & Htr & Hnd & Hw)].
  simpl in Hle. split; [done|].
  exists [GenerateContentCall client params; Mkdir (workplaceDir env (this m))], nws.
  split; [by repeat constructor|]. split; [|done].
  rewrite Htr. simpl. by rewrite <- !app_assoc.
Qed.

End FreshNames.

(** ** The empty save path *)

Section EmptySavePath.

Context (env : Env).

(** X22.  An image tool called with the empty string as
    [relative_save_path] does exactly what it does without
    [relative_save_path]: same result, same machine afterwards.  The
    handlers test the path for truth, and the empty string is not. *)
Theorem empty_save_path_is_none request request' args args' m :
  name request = "generate_image" ∨ name request = "edit_image" →
  name request' = name request →
  arguments request = Some args →
  arguments request' = Some args' →
  relative_save_path args = Some "" →
  relative_save_path args' = None →
  prompt args' = prompt args →
  imagePath args' = imagePath args →
  referenceImages args' = referenceImages args →
  handler env request m = handler env request' m.
Proof.
  intros Hn Hn' Ha Ha' Hr Hr' Hp Hi Hf.
  destruct (ensureConfigured_false_or (this m)) as [Hu|[Hc _]].
  { rewrite !image_tool_unconfigured; try done. by rewrite Hn'. }
  unfold handler, try_catch.
  destruct Hn as [Hn|Hn].
  - rewrite (dispatch_generate env _ Hn), (dispatch_generate env request')
      by (by rewrite Hn').
    rewrite (generateImage_configured env _ _ _ Hc Ha),
      (generateImage_configured env _ _ _ Hc Ha').
    by rewrite Hr, Hr', Hp.
  - rewrite (dispatch_edit env _ Hn), (dispatch_edit env request')
      by (by rewrite Hn').
    rewrite (editImage_configured env _ _ _ Hc Ha),
      (editImage_configured env _ _ _ Hc Ha').
    by rewrite Hr, Hr', Hp, Hi, Hf.
Qed.

End EmptySavePath.

(** ** The further properties at work on the concrete server *)

(** X1 on the tool that the status texts point to. *)
Lemma unknown_tool_rejected_witness :
  (name demo.continue_editing ∉ tool_names)
  ∧ handler demo.env demo.continue_editing demo.ready
    = (Throw (McpError MethodNotFound "Unknown tool: continue_editing"), demo.ready).
Proof.
  assert (name demo.continue_editing ∉ tool_names) as H.
  { unfold tool_names. intros Hin.
    repeat (apply elem_of_cons in Hin as [Hin|Hin]; [done|]).
    by apply elem_of_nil in Hin. }
  split; [exact H|].
  exact (proj1 (unknown_tool_rejected demo.env demo.continue_editing demo.ready H)).
Defined.

(** X2 on an edit whose primary image is missing. *)
Lemma failures_are_protocol_errors_witness :
  ∃ e, (handler demo.env demo.edit_missing demo.ready).1 = Throw e
       ∧ ∃ code message, e = McpError code message.
Proof.
  eexists. split; [by vm_compute|].
  destruct (failures_are_protocol_errors demo.env demo.edit_missing demo.ready _
              ltac:(by vm_compute)) as (code & message & H & _).
  by exists code, message.
Defined.

(** X3 on [configure_gemini_token] called with no arguments at all. *)
Lemma missing_arguments_object_witness :
  arguments demo.configure_bare = None
  ∧ ∃ detail,
      handler demo.env demo.configure_bare demo.ready
      = (Throw (McpError InternalError ("Tool execution failed: " +:+ detail)),
         demo.ready).
Proof.
  split; [reflexivity|].
  apply (missing_arguments_object demo.env demo.configure_bare demo.ready eq_refl).
  by left.
Defined.

(** X4 on the status query of the configured server. *)
Lemma queries_are_read_only_witness :
  ∃ text,
    handler demo.env demo.status demo.ready
    = (Return {| content := [TextItem text] |}, demo.ready).
Proof.
  apply (queries_are_read_only demo.env demo.status demo.ready). by left.
Defined.

(** X5 on the server that has written nothing yet. *)
Lemma last_image_report_witness :
  lastImagePath (this demo.ready) = None
  ∧ handler demo.env demo.last_image demo.ready
    = (Return {| content := [TextItem no_previous_image_text] |}, demo.ready).
Proof.
  split; [reflexivity|].
  apply (proj1 (last_image_report demo.env demo.last_image demo.ready eq_refl)).
  reflexivity.
Defined.

(** X6 on the environment with a key and a workplace path. *)
Lemma started_with_key_witness :
  GEMINI_API_KEY demo.hosted_env = Some "AIza-old"
  ∧ config (this (boot demo.hosted_env demo.world))
    = Some {| geminiApiKey := "AIza-old"; workplacePath := Some "/srv/images" |}.
Proof.
  split; [reflexivity|].
  by rewrite (proj1 (started_with_key demo.hosted_env demo.world "AIza-old" demo.status
                       eq_refl ltac:(done) eq_refl)).
Defined.

(** X7 on the environment without a key. *)
Lemma started_without_key_witness :
  truthy (GEMINI_API_KEY demo.env) = false
  ∧ handler demo.env (demo.generate "a cat" None) (boot demo.env demo.world)
    = (Throw (McpError InvalidRequest not_configured_text), boot demo.env demo.world).
Proof.
  split; [reflexivity|].
  apply (started_without_key demo.env demo.world (demo.generate "a cat" None) eq_refl).
  by left.
Defined.

(** X10 over a session of failing and succeeding calls. *)
Lemma stays_configured_witness :
  ensureConfigured (this demo.ready) = true
  ∧ ensureConfigured
      (this (serve demo.env
               [demo.configure_empty; demo.generate_nothing; demo.continue_editing;
                demo.edit_missing]
               demo.ready)) = true.
Proof.
  split; [reflexivity|]. by apply (stays_configured demo.env).
Defined.

(** X11 on the server started with one key and configured with another. *)
Lemma last_configure_wins_witness :
  "AIza-old" ≠ "" ∧ "AIza-demo" ≠ ""
  ∧ handler demo.env demo.configure (handler demo.env demo.configure_old demo.fresh).2
    = handler demo.env demo.configure demo.fresh.
Proof.
  split; [done|]. split; [done|].
  apply (last_configure_wins demo.env demo.configure_old
           demo.configure (demo.with_apiKey "AIza-old") (demo.with_apiKey "AIza-demo")
           "AIza-old" "AIza-demo" demo.fresh); done.
Defined.

(** X13 on a request that the service refuses. *)
Lemma service_failure_witness :
  generateContent demo.env (calls (os demo.ready)) {| client_apiKey := "AIza-demo" |}
    {| model := image_model; contents := PromptContents None |}
  = inl (Error "contents are required")
  ∧ handler demo.env demo.generate_nothing demo.ready
    = (Throw (McpError InternalError "Failed to generate image: contents are required"),
       requested {| client_apiKey := "AIza-demo" |}
         {| model := image_model; contents := PromptContents None |} demo.ready).
Proof.
  split; [reflexivity|].
  apply (service_failure demo.env demo.generate_nothing no_arguments
           {| client_apiKey := "AIza-demo" |}
           {| model := image_model; contents := PromptContents None |}
           (Error "contents are required") demo.ready); try reflexivity.
  by left.
Defined.

(** X14 on the working directory that cannot be made. *)
Lemma directory_failure_witness :
  (imagesDir demo.env (this demo.readonly) None ∈ denied (os demo.readonly))
  ∧ ∃ detail,
      (handler demo.env (demo.generate "a cat" None) demo.readonly).1
      = Throw (McpError InternalError ("Failed to generate image: " +:+ detail)).
Proof.
  assert (imagesDir demo.env (this demo.readonly) None ∈ denied (os demo.readonly))
    as Hd.
  { change ("/home/user" ∈ ({["/home/user"]} : gset string)).
    by apply elem_of_singleton_2. }
  split; [exact Hd|].
  destruct (directory_failure demo.env (demo.generate "a cat" None)
              (demo.with_prompt "a cat" None) {| client_apiKey := "AIza-demo" |}
              {| model := image_model; contents := PromptContents (Some "a cat") |}
              (demo.response [demo.image "Q0FU" (Some "image/png")]) demo.readonly
              (or_introl eq_refl) eq_refl eq_refl eq_refl eq_refl eq_refl Hd)
    as [detail H].
  exists detail. by rewrite H.
Defined.

(** X15 on an edit whose primary image is missing. *)
Lemma primary_image_unreadable_witness :
  files (os demo.ready) !! "/in/missing.png" = None
  ∧ ∃ detail,
      handler demo.env demo.edit_missing demo.ready
      = (Throw (McpError InternalError ("Failed to edit image: " +:+ detail)),
         demo.ready).
Proof.
  split; [reflexivity|].
  apply (primary_image_unreadable demo.env demo.edit_missing
           (demo.with_image "/in/missing.png" "add a hat" None) "/in/missing.png"
           demo.ready); reflexivity.
Defined.

(** X17 on the server configured and then asked for an image. *)
Lemma request_uses_configured_key_witness :
  "AIza-demo" ≠ ""
  ∧ ∃ rest,
      trace (os (handler demo.env (demo.generate "a cat" None)
                   (handler demo.env demo.configure demo.fresh).2).2)
      = trace (os demo.fresh)
        ++ GenerateContentCall {| client_apiKey := "AIza-demo" |}
             {| model := "gemini-2.5-flash-image-preview";
                contents := PromptContents (Some "a cat") |}
           :: rest.
Proof.
  split; [done|].
  apply (request_uses_configured_key demo.env demo.configure
           (demo.generate "a cat" None) (demo.with_apiKey "AIza-demo")
           (demo.with_prompt "a cat" None) "AIza-demo" demo.fresh); done.
Defined.


(** X21 on a call that saves two images without a given name. *)
Lemma stamped_names_are_fresh_witness :
  truthy (relative_save_path (demo.with_prompt "two cats" None)) = false
  ∧ (draws (os demo.ready)
     ≤ draws (os (handler demo.env (demo.generate "two cats" None) demo.ready).2))%nat.
Proof.
  split; [reflexivity|].
  apply (stamped_names_are_fresh demo.env (demo.generate "two cats" None)
           (demo.with_prompt "two cats" None) demo.ready); try reflexivity.
  by left.
Defined.

(** X22 on a call with the empty save path. *)
Lemma empty_save_path_is_none_witness :
  relative_save_path (demo.with_prompt "a cat" (Some "")) = Some ""
  ∧ handler demo.env (demo.generate "a cat" (Some "")) demo.ready
    = handler demo.env (demo.generate "a cat" None) demo.ready.
Proof.
  split; [reflexivity|].
  apply (empty_save_path_is_none demo.env (demo.generate "a cat" (Some ""))
           (demo.generate "a cat" None) (demo.with_prompt "a cat" (Some ""))
           (demo.with_prompt "a cat" None) demo.ready); try reflexivity.
  by left.
Defined.
